(** * GotDownloader.download: a shallow embedding

    The single source file, [src/GotDownloader.ts], holds one asynchronous
    method, [GotDownloader.download].  It creates a directory, opens a file
    write stream, optionally arms a 30 second timer that will create a console
    progress bar, opens a [got] stream, registers four event listeners, pipes
    the [got] stream into the file and awaits a promise that the listeners
    settle.

    The embedding has two layers.

    - The code of the method: the synchronous prefix ([download]), the body of
      each listener ([onDownloadProgress], [onDownloadError], [onWriteError],
      [onWriteClose]), the timer callback ([timeoutCallback]) and the
      continuation after the [await] ([afterAwait]).  Each is a function on an
      explicit [State] holding the local variables of the method.
    - The part of the JavaScript runtime the method relies on: a promise
      settles once, an event emitter discards what a listener returns, a
      timer fires once and not after [clearTimeout], [pipe] ends the
      destination when the source ends and leaves the source alone when the
      destination fails.  The function [step] delivers one event of the
      environment to the listeners.

    Two calls into libraries can throw in the middle of the method, and the
    environment decides whether they do: [got.stream] (line 60), when the URL
    or an option is invalid, and [bar.update] (line 64), whose behaviour
    depends on the history of the bar, the terminal and the clock.

    JavaScript numbers are IEEE 754 doubles: they are modelled by Rocq's
    primitive binary64 floats. *)

From Stdlib Require Import ZArith Floats Bool List Ascii.
From stdpp Require Import gmap strings list.
Import ListNotations.

Open Scope string_scope.
Open Scope Z_scope.

(** ** JavaScript numbers *)

(** [Math.round]: the nearest integer, a tie going towards plus infinity;
    NaN, the infinities and the zeros are returned as they are.  A finite
    double is [m * 2^e] with [m < 2^53]; with [e >= 0] it is an integer
    already. *)
Module Math.

Definition round (x : float) : float :=
  match Prim2SF x with
  | S754_finite negative m e =>
      if 0 <=? e then x
      else
        let d := 2 ^ (- e) in
        let q := Z.pos m / d in
        let r := Z.pos m mod d in
        let n :=
          if negative
          then (if d <? 2 * r then q + 1 else q)
          else (if d <=? 2 * r then q + 1 else q) in
        SF2Prim (binary_normalize prec emax (if negative then - n else n) 0 negative)
  | _ => x
  end.

End Math.

(** [ToNumber] of a property that may be [undefined]. *)
Definition toNumber (v : option float) : float :=
  match v with
  | Some x => x
  | None => nan
  end.

(** Truthiness of a number: [0], [-0] and [NaN] are falsy. *)
Definition truthyNumber (x : float) : bool :=
  negb (PrimFloat.eqb x 0 || is_nan x).

(** ** JavaScript strings *)

(** [s.startsWith(p)] *)
Fixpoint startsWith (s p : string) {struct p} : bool :=
  match p, s with
  | EmptyString, _ => true
  | String a p', String b s' => Ascii.eqb a b && startsWith s' p'
  | String _ _, EmptyString => false
  end.

(** [s.includes(sub)] *)
Fixpoint includes (s sub : string) : bool :=
  startsWith s sub ||
  match s with
  | EmptyString => false
  | String _ s' => includes s' sub
  end.

(** ** Values of the program *)

(** [got]'s [Progress]: [{ percent: number; transferred: number; total?: number }]. *)
Record Progress := {
  percent : float;
  transferred : float;
  total : option float
}.

(** The response carried by an [HTTPError]. *)
Record Response := {
  statusCode : Z;
  responseUrl : string
}.

(** An error object: its class (an [HTTPError] has a [response]) and its
    mutable [message]. *)
Record JSError := {
  response : option Response;
  message : string
}.

(** The state of a promise. *)
Inductive Settlement :=
| Pending
| Fulfilled
| Rejected (reason : JSError).

(** What a call of the caller's callback does: it returns a promise, or it
    throws. *)
Inductive CallResult :=
| Returns (p : Settlement)
| Throws (e : JSError).

(** Property values of the options object.  An object or array value is a
    reference: the rest pattern of line 34 copies references, not objects. *)
Inductive JSValue :=
| VUndefined
| VNull
| VBoolean (b : bool)
| VNumber (x : float)
| VString (s : string)
| VFunction (f : Progress -> CallResult)
| VObject (reference : positive).

(** ToBoolean. *)
Definition truthy (v : JSValue) : bool :=
  match v with
  | VUndefined | VNull => false
  | VBoolean b => b
  | VNumber x => truthyNumber x
  | VString s => negb (String.eqb s EmptyString)
  | VFunction _ | VObject _ => true
  end.

(** A property read: an absent property reads as [undefined]. *)
Definition get (o : gmap string JSValue) (k : string) : JSValue :=
  match o !! k with
  | Some v => v
  | None => VUndefined
  end.

(** [process.env.NAME]: absent, or a string (the empty string is falsy). *)
Definition truthyEnv (v : option string) : bool :=
  match v with
  | Some s => negb (String.eqb s EmptyString)
  | None => false
  end.

(** ** The objects the method creates *)

(** The [ProgressBar] of line 46 as the code sets it up: the format string,
    the options [{ curr, total }] and the [start] field assigned on line 55.
    [curr] is the value of the local variable [progressPercent], which is
    [undefined] ([None]) until it is assigned. *)
Record ProgressBar := {
  format : string;
  curr : option float;
  barTotal : float;
  start : Z
}.

(** The constructor of the [progress] package reads the seed as
    [options.curr || 0]. *)
Definition seed (b : ProgressBar) : float :=
  match curr b with
  | Some x => if truthyNumber x then x else 0%float
  | None => 0%float
  end.

(** The timer of line 44: the [start] date its callback captured, its delay
    in milliseconds and whether it is still waiting. *)
Inductive TimerStatus :=
| TimerWaiting
| TimerFired
| TimerCleared.

Record Timeout := {
  capturedStart : Z;
  delay : Z;
  status : TimerStatus
}.

(** The file write stream: open, ended by [pipe] (the source is exhausted and
    the remaining bytes are being flushed), closed after the flush, or
    destroyed with an error. *)
Inductive WritableState :=
| WOpen
| WEnding
| WClosed
| WDestroyed (e : JSError).

(** The [got] stream: open, ended, or failed with an error. *)
Inductive ReadableState :=
| ROpen
| REnded
| RErrored (e : JSError).

(** What the method does to the world, in the order it does it. *)
Inductive Effect :=
| EMkdirp (dir : string)
| ECreateWriteStream (file : string)
| ESetTimeout (ms : Z)
| EGotStream (url : string) (gotOptions : gmap string JSValue)
| EPipe
| ENewProgressBar (b : ProgressBar)
| EBarUpdate (ratio : float)
| ECallback (progress : Progress)
| EDestroyWriteStream (error : JSError)
| EReject (error : JSError)
| EResolve
| EClearTimeout.

(** The local variables of one call (lines 35 to 40 and 60), the promise
    awaited on line 59, the promise the call returned, the effects so far, and
    the rejections of listener promises that nothing handles. *)
Record State := {
  downloadCompleted : bool;
  bar : option ProgressBar;
  progressPercent : option float;
  timeout : option Timeout;
  writeStream : option WritableState;
  downloadStream : option ReadableState;
  promise : option Settlement;
  returned : Settlement;
  log : list Effect;
  unhandledRejections : list JSError
}.

Definition set_downloadCompleted (v : bool) (s : State) : State :=
  {| downloadCompleted := v; bar := bar s; progressPercent := progressPercent s;
     timeout := timeout s; writeStream := writeStream s;
     downloadStream := downloadStream s; promise := promise s;
     returned := returned s; log := log s;
     unhandledRejections := unhandledRejections s |}.

Definition set_bar (v : option ProgressBar) (s : State) : State :=
  {| downloadCompleted := downloadCompleted s; bar := v;
     progressPercent := progressPercent s;
     timeout := timeout s; writeStream := writeStream s;
     downloadStream := downloadStream s; promise := promise s;
     returned := returned s; log := log s;
     unhandledRejections := unhandledRejections s |}.

Definition set_timeout (v : option Timeout) (s : State) : State :=
  {| downloadCompleted := downloadCompleted s; bar := bar s;
     progressPercent := progressPercent s;
     timeout := v; writeStream := writeStream s;
     downloadStream := downloadStream s; promise := promise s;
     returned := returned s; log := log s;
     unhandledRejections := unhandledRejections s |}.

Definition set_writeStream (v : option WritableState) (s : State) : State :=
  {| downloadCompleted := downloadCompleted s; bar := bar s;
     progressPercent := progressPercent s;
     timeout := timeout s; writeStream := v;
     downloadStream := downloadStream s; promise := promise s;
     returned := returned s; log := log s;
     unhandledRejections := unhandledRejections s |}.

Definition set_downloadStream (v : option ReadableState) (s : State) : State :=
  {| downloadCompleted := downloadCompleted s; bar := bar s;
     progressPercent := progressPercent s;
     timeout := timeout s; writeStream := writeStream s;
     downloadStream := v; promise := promise s;
     returned := returned s; log := log s;
     unhandledRejections := unhandledRejections s |}.

Definition set_promise (v : option Settlement) (s : State) : State :=
  {| downloadCompleted := downloadCompleted s; bar := bar s;
     progressPercent := progressPercent s;
     timeout := timeout s; writeStream := writeStream s;
     downloadStream := downloadStream s; promise := v;
     returned := returned s; log := log s;
     unhandledRejections := unhandledRejections s |}.

Definition set_returned (v : Settlement) (s : State) : State :=
  {| downloadCompleted := downloadCompleted s; bar := bar s;
     progressPercent := progressPercent s;
     timeout := timeout s; writeStream := writeStream s;
     downloadStream := downloadStream s; promise := promise s;
     returned := v; log := log s;
     unhandledRejections := unhandledRejections s |}.

(** Record one more effect. *)
Definition effect (e : Effect) (s : State) : State :=
  {| downloadCompleted := downloadCompleted s; bar := bar s;
     progressPercent := progressPercent s;
     timeout := timeout s; writeStream := writeStream s;
     downloadStream := downloadStream s; promise := promise s;
     returned := returned s; log := log s ++ [e];
     unhandledRejections := unhandledRejections s |}.

Definition unhandled (e : JSError) (s : State) : State :=
  {| downloadCompleted := downloadCompleted s; bar := bar s;
     progressPercent := progressPercent s;
     timeout := timeout s; writeStream := writeStream s;
     downloadStream := downloadStream s; promise := promise s;
     returned := returned s; log := log s;
     unhandledRejections := unhandledRejections s ++ [e] |}.

(** ** The runtime the method relies on *)

(** [writeStream.destroy(error)]: an open stream becomes destroyed; a stream
    already closed or destroyed stays as it is. *)
Definition destroy (error : JSError) (s : State) : State :=
  let s := effect (EDestroyWriteStream error) s in
  match writeStream s with
  | Some WOpen | Some WEnding => set_writeStream (Some (WDestroyed error)) s
  | _ => s
  end.

(** [clearTimeout(timeout)]: a waiting timer will not fire any more. *)
Definition clearTimeout (t : Timeout) (s : State) : State :=
  let s := effect EClearTimeout s in
  match status t with
  | TimerWaiting =>
      set_timeout
        (Some {| capturedStart := capturedStart t; delay := delay t;
                 status := TimerCleared |}) s
  | _ => s
  end.

(** Calling a value: only a function can be called. *)
Definition notAFunction : JSError :=
  {| response := None; message := "getProgressCallback is not a function" |}.

Definition call (f : JSValue) (progress : Progress) : CallResult :=
  match f with
  | VFunction f => f progress
  | _ => Throws notAFunction
  end.

(** [await] inside an async function: a call that throws and a promise that
    rejects both reject the promise of the async function. *)
Definition await (r : CallResult) : Settlement :=
  match r with
  | Returns p => p
  | Throws e => Rejected e
  end.

(** An event emitter calls a listener and drops what it returns: when the
    listener is an async function whose promise rejects, nothing handles the
    rejection. *)
Definition emitAsync (r : State * Settlement) : State :=
  match r with
  | (s, Rejected e) => unhandled e s
  | (s, _) => s
  end.

(** A listener registered together with the transport stream runs only when
    that stream was created. *)
Definition listener (registered : option ReadableState)
    (handler : State -> State) (s : State) : State :=
  match registered with
  | Some _ => handler s
  | None => s
  end.

(** [pipe]: when the source ends, the destination is ended. *)
Definition pipeEnd (s : State) : State :=
  match writeStream s with
  | Some WOpen => set_writeStream (Some WEnding) s
  | _ => s
  end.

(** ** The code of the method *)

(** Line 8. *)
Definition PROGRESS_BAR_DELAY_IN_SECONDS : Z := 30.

(** The two functions of Node's [path] module that the method calls. *)
Record PathModule := {
  dirname : string -> string;
  basename : string -> string
}.

(** What the call finds around it: [process.env], the clock that
    [new Date()] reads, whether [fs.mkdirp] succeeds ([None]) or rejects
    with an error, and whether [got.stream] returns a stream ([None]) or
    throws an error (an invalid URL or option). *)
Record World := {
  env : gmap string string;
  now : Z;
  mkdirp : option JSError;
  gotStream : option JSError
}.

(** What the environment delivers to the listeners and to the timer.  A
    transfer-progress event comes in two kinds: [DownloadProgress], during
    which a call of [bar.update] returns, and [DownloadProgressUpdateFails],
    during which a call of [bar.update] throws the given error (when no bar
    exists the two kinds are handled alike).  [WriteOpen] is the ['open'] of
    the write stream: the file at the destination path has been created or
    truncated; the method has no listener for it. *)
Inductive Event :=
| DownloadProgress (progress : Progress)
| DownloadProgressUpdateFails (progress : Progress) (error : JSError)
| DownloadError (error : JSError)
| DownloadEnd
| WriteOpen
| WriteError (error : JSError)
| WriteClose
| TimeoutFires (time : Z).

Definition initial : State :=
  {| downloadCompleted := false; bar := None; progressPercent := None;
     timeout := None; writeStream := None; downloadStream := None;
     promise := None; returned := Pending; log := [];
     unhandledRejections := [] |}.

(** Lines 86 to 90, run when the promise of line 59 is fulfilled. *)
Definition afterAwait (s : State) : State :=
  let s := set_downloadCompleted true s in
  let s :=
    match timeout s with
    | Some t => clearTimeout t s
    | None => s
    end in
  set_returned Fulfilled s.

(** [resolve()] of the promise of line 59.  The continuation of the [await]
    is a microtask: it runs before any further event or timer. *)
Definition resolve (s : State) : State :=
  let s := effect EResolve s in
  match promise s with
  | Some Pending => afterAwait (set_promise (Some Fulfilled) s)
  | _ => s
  end.

(** [reject(error)] of the promise of line 59.  The [await] throws, nothing
    catches it: the method rejects with the error and lines 86 to 89 do not
    run. *)
Definition reject (error : JSError) (s : State) : State :=
  let s := effect (EReject error) s in
  match promise s with
  | Some Pending =>
      set_returned (Rejected error) (set_promise (Some (Rejected error)) s)
  | _ => s
  end.

(** Line 34: the rest of the options, without the two named properties. *)
Definition gotOptionsOf (options : gmap string JSValue) : gmap string JSValue :=
  delete "getProgressCallback" (delete "quiet" options).

(** Line 62. *)
Definition calculatedPercent (progress : Progress) : float :=
  Math.round ((transferred progress / toNumber (total progress)) * 100)%float.

(** Lines 61 to 69: the async listener of ['downloadProgress'], with the
    state of the promise it returns.  [update] is what a call of
    [bar.update] does during this event: it returns ([None]) or throws.  When
    it throws, the listener ends there and its promise rejects: line 66 is
    not reached.  Calling a truthy value that is not a function throws before
    anything is called. *)
Definition onDownloadProgress (getProgressCallback : JSValue)
    (progress : Progress) (update : option JSError) (s : State)
    : State * Settlement :=
  let updated :=
    match bar s with
    | Some _ => (effect (EBarUpdate (calculatedPercent progress)) s, update)
    | None => (s, None)
    end in
  match updated with
  | (s, Some error) => (s, Rejected error)
  | (s, None) =>
      if truthy getProgressCallback
      then
        (match getProgressCallback with
         | VFunction _ => effect (ECallback progress) s
         | _ => s
         end,
         await (call getProgressCallback progress))
      else (s, Fulfilled)
  end.

(** Lines 71 to 73: an [HTTPError] whose response has status 404 gets
    [error.message += ` for ${error.response.url}`]. *)
Definition enrich (error : JSError) : JSError :=
  match response error with
  | Some r =>
      if statusCode r =? 404
      then {| response := response error;
              message := message error +:+ " for " +:+ responseUrl r |}
      else error
  | None => error
  end.

(** Lines 70 to 79: the listener of ['error'] on the [got] stream.  Every
    [fs.WriteStream] has a [destroy] method, so the test of line 74 holds. *)
Definition onDownloadError (error : JSError) (s : State) : State :=
  let error := enrich error in
  let s := destroy error s in
  reject error s.

(** Line 80. *)
Definition onWriteError (error : JSError) (s : State) : State :=
  reject error s.

(** Line 81. *)
Definition onWriteClose (s : State) : State :=
  resolve s.

Section Downloader.

Variable path : PathModule.

(** Lines 45 to 56: the callback of the timer, with the [start] it captured. *)
Definition timeoutCallback (url : string) (start : Z) (s : State) : State :=
  if negb (downloadCompleted s)
  then
    let b :=
      {| format := "Downloading " +:+ basename path url
                   +:+ ": [:bar] :percent ETA: :eta seconds ";
         curr := progressPercent s;
         barTotal := 100%float;
         start := start |} in
    set_bar (Some b) (effect (ENewProgressBar b) s)
  else s.

(** Lines 31 to 60 and 83: the method up to its second [await].  When
    [got.stream] throws inside the executor of line 59, the promise rejects
    with the error thrown, no listener is registered (lines 61 to 81), [pipe]
    is not called, and, as for every rejection, lines 86 to 89 do not run. *)
Definition download (world : World) (url targetFilePath : string)
    (options : option (gmap string JSValue)) : State :=
  let options := default ∅ options in
  let quiet := get options "quiet" in
  let gotOptions := gotOptionsOf options in
  let s := effect (EMkdirp (dirname path targetFilePath)) initial in
  match mkdirp world with
  | Some error => set_returned (Rejected error) s
  | None =>
      let s :=
        set_writeStream (Some WOpen)
          (effect (ECreateWriteStream targetFilePath) s) in
      let s :=
        if negb (truthy quiet)
           || negb (truthyEnv (env world !! "ELECTRON_GET_NO_PROGRESS"))
        then
          set_timeout
            (Some {| capturedStart := now world;
                     delay := PROGRESS_BAR_DELAY_IN_SECONDS * 1000;
                     status := TimerWaiting |})
            (effect (ESetTimeout (PROGRESS_BAR_DELAY_IN_SECONDS * 1000)) s)
        else s in
      let s := set_promise (Some Pending) s in
      let s := effect (EGotStream url gotOptions) s in
      match gotStream world with
      | Some error =>
          set_returned (Rejected error) (set_promise (Some (Rejected error)) s)
      | None => effect EPipe (set_downloadStream (Some ROpen) s)
      end
  end.

(** One event of the environment.  A stream that is not open emits no
    further data events; a write stream emits ['close'] once it has been ended
    and flushed, or after it was destroyed; a stream that fails is destroyed;
    a timer fires once, not before its delay and not after it was cleared.
    The listeners of the write stream (lines 80 and 81) are registered after
    [got.stream] has returned: they exist exactly when the transport stream
    does. *)
Definition step (url : string) (getProgressCallback : JSValue)
    (s : State) (ev : Event) : State :=
  match ev with
  | DownloadProgress progress =>
      match downloadStream s with
      | Some ROpen =>
          emitAsync (onDownloadProgress getProgressCallback progress None s)
      | _ => s
      end
  | DownloadProgressUpdateFails progress error =>
      match downloadStream s with
      | Some ROpen =>
          emitAsync
            (onDownloadProgress getProgressCallback progress (Some error) s)
      | _ => s
      end
  | DownloadError error =>
      match downloadStream s with
      | Some ROpen =>
          onDownloadError error (set_downloadStream (Some (RErrored error)) s)
      | _ => s
      end
  | DownloadEnd =>
      match downloadStream s with
      | Some ROpen => pipeEnd (set_downloadStream (Some REnded) s)
      | _ => s
      end
  | WriteOpen => s
  | WriteError error =>
      match writeStream s with
      | Some WOpen | Some WEnding =>
          listener (downloadStream s) (onWriteError error)
            (set_writeStream (Some (WDestroyed error)) s)
      | Some (WDestroyed _) =>
          listener (downloadStream s) (onWriteError error) s
      | _ => s
      end
  | WriteClose =>
      match writeStream s with
      | Some WEnding =>
          listener (downloadStream s) onWriteClose
            (set_writeStream (Some WClosed) s)
      | Some (WDestroyed _) => listener (downloadStream s) onWriteClose s
      | _ => s
      end
  | TimeoutFires time =>
      match timeout s with
      | Some t =>
          match status t with
          | TimerWaiting =>
              if capturedStart t + delay t <=? time
              then
                timeoutCallback url (capturedStart t)
                  (set_timeout
                     (Some {| capturedStart := capturedStart t;
                              delay := delay t; status := TimerFired |}) s)
              else s
          | _ => s
          end
      | None => s
      end
  end.

(** A call followed by the events the environment delivers. *)
Definition run (world : World) (url targetFilePath : string)
    (options : option (gmap string JSValue)) (events : list Event) : State :=
  fold_left
    (step url (get (default ∅ options) "getProgressCallback"))
    events
    (download world url targetFilePath options).

End Downloader.

(** ** Notions used by the properties *)

(** Effects that create a write stream, and effects that open a transport
    stream. *)
Definition createsWriteStream (e : Effect) : bool :=
  match e with
  | ECreateWriteStream _ => true
  | _ => false
  end.

Definition opensTransport (e : Effect) : bool :=
  match e with
  | EGotStream _ _ => true
  | _ => false
  end.

Definition clearsTimeout (e : Effect) : bool :=
  match e with
  | EClearTimeout => true
  | _ => false
  end.

Definition destroysWriteStream (e : Effect) : bool :=
  match e with
  | EDestroyWriteStream _ => true
  | _ => false
  end.

Definition callsCallback (e : Effect) : bool :=
  match e with
  | ECallback _ => true
  | _ => false
  end.

Fixpoint count (f : Effect -> bool) (l : list Effect) : nat :=
  match l with
  | [] => 0%nat
  | e :: l' => if f e then S (count f l') else count f l'
  end.

(** A stream that was never created has nothing left open. *)
Definition writableClosed (w : option WritableState) : bool :=
  match w with
  | Some WOpen | Some WEnding => false
  | Some WClosed | Some (WDestroyed _) | None => true
  end.

Definition readableClosed (r : option ReadableState) : bool :=
  match r with
  | Some ROpen => false
  | Some REnded | Some (RErrored _) | None => true
  end.

Definition settled (p : Settlement) : bool :=
  match p with
  | Pending => false
  | Fulfilled | Rejected _ => true
  end.

Definition waiting (t : option Timeout) : bool :=
  match t with
  | Some {| status := TimerWaiting |} => true
  | _ => false
  end.

(** The state of a call without its log and without the rejections nothing
    handles: what the code of the method can read. *)
Definition core (s : State) :=
  (downloadCompleted s, bar s, progressPercent s, timeout s,
   writeStream s, downloadStream s, promise s, returned s).

(** Effects on the console progress bar and on the timer, and calls of
    [reject]. *)
Definition createsBar (e : Effect) : bool :=
  match e with
  | ENewProgressBar _ => true
  | _ => false
  end.

Definition updatesBar (e : Effect) : bool :=
  match e with
  | EBarUpdate _ => true
  | _ => false
  end.

Definition setsTimeout (e : Effect) : bool :=
  match e with
  | ESetTimeout _ => true
  | _ => false
  end.

Definition callsReject (e : Effect) : bool :=
  match e with
  | EReject _ => true
  | _ => false
  end.

(** The events the caller's callback was called with, in order. *)
Fixpoint callbacks (l : list Effect) : list Progress :=
  match l with
  | [] => []
  | ECallback progress :: l' => progress :: callbacks l'
  | _ :: l' => callbacks l'
  end.

(** The transfer-progress events of a run that reach the listener: those
    the transport stream emits before it ends or fails. *)
Fixpoint delivered (events : list Event) : list Progress :=
  match events with
  | [] => []
  | DownloadProgress progress :: events' => progress :: delivered events'
  | DownloadProgressUpdateFails progress _ :: events' =>
      progress :: delivered events'
  | DownloadError _ :: _ => []
  | DownloadEnd :: _ => []
  | _ :: events' => delivered events'
  end.

(** Whether the transport stream still emits events. *)
Definition transportOpen (s : State) : bool :=
  match downloadStream s with
  | Some ROpen => true
  | _ => false
  end.

(** The values the bar was updated with, in order. *)
Fixpoint barUpdates (l : list Effect) : list float :=
  match l with
  | [] => []
  | EBarUpdate ratio :: l' => ratio :: barUpdates l'
  | _ :: l' => barUpdates l'
  end.

(** The transfer-progress events of a run that reach the listener after the
    timer has fired at [limit] or later: those between the first such firing
    and the end or failure of the transport stream, provided the transport
    stream is still open at that firing. *)
Fixpoint shown (limit : Z) (events : list Event) : list Progress :=
  match events with
  | [] => []
  | TimeoutFires time :: events' =>
      if limit <=? time then delivered events' else shown limit events'
  | DownloadError _ :: _ => []
  | DownloadEnd :: _ => []
  | _ :: events' => shown limit events'
  end.

(** A call that waits for its timer, due at [limit], while the transfer is
    running. *)
Definition Watching (limit : Z) (s : State) : Prop :=
  transportOpen s = true /\
  bar s = None /\
  downloadCompleted s = false /\
  (promise s = Some Pending -> writeStream s = Some WOpen) /\
  match timeout s with
  | Some t => status t = TimerWaiting /\ capturedStart t + delay t = limit
  | None => False
  end.

(** Whether a value can be called. *)
Definition isFunction (v : JSValue) : bool :=
  match v with
  | VFunction _ => true
  | _ => false
  end.

(** The transfer-progress events of a run for which the listener reaches
    line 66 once a bar exists: those during which [bar.update] returns. *)
Fixpoint reachedWithBar (events : list Event) : list Progress :=
  match events with
  | [] => []
  | DownloadProgress progress :: events' => progress :: reachedWithBar events'
  | DownloadError _ :: _ => []
  | DownloadEnd :: _ => []
  | _ :: events' => reachedWithBar events'
  end.

(** The transfer-progress events of a run for which the listener reaches
    line 66, when the timer is due at [limit]: all of them until the timer
    fires, then those during which [bar.update] returns. *)
Fixpoint reached (limit : Z) (events : list Event) : list Progress :=
  match events with
  | [] => []
  | DownloadProgress progress :: events' => progress :: reached limit events'
  | DownloadProgressUpdateFails progress _ :: events' =>
      progress :: reached limit events'
  | TimeoutFires time :: events' =>
      if limit <=? time then reachedWithBar events' else reached limit events'
  | DownloadError _ :: _ => []
  | DownloadEnd :: _ => []
  | _ :: events' => reached limit events'
  end.



(** The events of a run without those of the timer. *)
Fixpoint withoutTimer (events : list Event) : list Event :=
  match events with
  | [] => []
  | TimeoutFires _ :: events' => withoutTimer events'
  | ev :: events' => ev :: withoutTimer events'
  end.

(** An event that is not the timer firing at [limit] or later. *)
Definition before (limit : Z) (ev : Event) : bool :=
  match ev with
  | TimeoutFires time => time <? limit
  | _ => true
  end.

(** The variables that decide the transfer: the streams, the two promises
    and the completion flag. *)
Definition transfer (s : State) :=
  (downloadCompleted s, writeStream s, downloadStream s, promise s,
   returned s).

(** While a call is pending its streams are both open, or the transport
    stream has ended and the write stream is flushing. *)
Definition Ready (s : State) : Prop :=
  returned s = Pending ->
  promise s = Some Pending /\
  (writeStream s = Some WOpen /\ downloadStream s = Some ROpen \/
   writeStream s = Some WEnding /\ downloadStream s = Some REnded).


(** The shapes of the states a call can reach. *)
Definition Inv (s : State) : Prop :=
  match returned s with
  | Pending =>
      promise s = Some Pending /\
      (writeStream s = Some WOpen /\ downloadStream s <> None \/
       writeStream s = Some WEnding /\ downloadStream s = Some REnded)
  | Fulfilled =>
      promise s = Some Fulfilled /\
      writeStream s = Some WClosed /\ downloadStream s = Some REnded
  | Rejected e =>
      promise s = None /\ writeStream s = None /\
      downloadStream s = None /\ timeout s = None \/
      promise s = Some (Rejected e) /\
      (exists e', writeStream s = Some (WDestroyed e')) /\
      downloadStream s <> None \/
      promise s = Some (Rejected e) /\
      writeStream s <> None /\ downloadStream s = None
  end.

(** A [path] module for the examples: the part of a path before its last
    slash and the part after it (enough for paths with a directory part). *)
Fixpoint beforeLastSlash (s : string) : string :=
  match s with
  | EmptyString => EmptyString
  | String c s' =>
      if includes s' "/" then String c (beforeLastSlash s') else EmptyString
  end.

Fixpoint afterLastSlash (s : string) : string :=
  match s with
  | EmptyString => EmptyString
  | String c s' =>
      if includes s' "/" then afterLastSlash s'
      else if Ascii.eqb c "/"%char then s' else s
  end.

Definition samplePath : PathModule :=
  {| dirname := beforeLastSlash; basename := afterLastSlash |}.

(** Inputs of the examples. *)
Definition quietWorld : World :=
  {| env := ∅; now := 1000; mkdirp := None; gotStream := None |}.

Definition boom : JSError := {| response := None; message := "boom" |}.

Definition notFound : JSError :=
  {| response := Some {| statusCode := 404; responseUrl := "http://b/y" |};
     message := "Response code 404 (Not Found)" |}.

Definition half : Progress :=
  {| percent := 0.5%float; transferred := 50%float; total := Some 100%float |}.

Definition unknownTotal : Progress :=
  {| percent := 0%float; transferred := 5%float; total := Some 0%float |}.

Definition failingCallback : JSValue :=
  VFunction (fun _ => Returns (Rejected boom)).

Definition withFailingCallback : option (gmap string JSValue) :=
  Some {[ "getProgressCallback" := failingCallback ]}.

Definition optedOutWorld : World :=
  {| env := {[ "ELECTRON_GET_NO_PROGRESS" := "1" ]}; now := 1000;
     mkdirp := None; gotStream := None |}.

Definition invalidUrl : JSError :=
  {| response := None; message := "Invalid URL: not a url" |}.

Definition invalidUrlWorld : World :=
  {| env := ∅; now := 1000; mkdirp := None; gotStream := Some invalidUrl |}.

Definition renderFailure : JSError :=
  {| response := None; message := "stream is not writable" |}.


Definition three_quarters : Progress :=
  {| percent := 0.75%float; transferred := 75%float; total := Some 100%float |}.

Definition quietOptions : option (gmap string JSValue) :=
  Some {[ "quiet" := VBoolean true ]}.

(** * Properties *)

(** ** Strings *)

Lemma startsWith_app (p s : string) : startsWith (p +:+ s) p = true.
Proof.
  induction p as [|a p IH]; simpl; [reflexivity|].
  rewrite Ascii.eqb_refl. exact IH.
Qed.

Lemma includes_startsWith (s sub : string) :
  startsWith s sub = true -> includes s sub = true.
Proof. intros H. destruct s; simpl; rewrite H; reflexivity. Qed.

Lemma includes_app (pre sub post : string) :
  includes (pre +:+ sub +:+ post) sub = true.
Proof.
  induction pre as [|a pre IH].
  - change (includes (sub +:+ post) sub = true).
    apply includes_startsWith, startsWith_app.
  - change (includes (String a (pre +:+ sub +:+ post)) sub = true).
    simpl. rewrite IH. apply orb_true_r.
Qed.

Lemma startsWith_refl (s : string) : startsWith s s = true.
Proof.
  induction s as [|a s IH]; simpl; [reflexivity|].
  rewrite Ascii.eqb_refl. exact IH.
Qed.

Lemma includes_refl (s : string) : includes s s = true.
Proof. apply includes_startsWith, startsWith_refl. Qed.

Lemma includes_app_r (pre s sub : string) :
  includes s sub = true -> includes (pre +:+ s) sub = true.
Proof.
  intros H. induction pre as [|a pre IH]; [exact H|].
  change (includes (String a (pre +:+ s)) sub = true).
  simpl. rewrite IH. apply orb_true_r.
Qed.

Lemma startsWith_spec (s p : string) :
  startsWith s p = true -> exists post, s = p +:+ post.
Proof.
  revert s; induction p as [|a p IH]; intros s H.
  - exists s. reflexivity.
  - destruct s as [|b s]; simpl in H; [discriminate|].
    apply andb_true_iff in H as [Hab H].
    apply Ascii.eqb_eq in Hab. subst b.
    destruct (IH _ H) as [post ->]. exists post. reflexivity.
Qed.

(** [includes] is the substring relation. *)
Lemma includes_spec (s sub : string) :
  includes s sub = true <-> exists pre post, s = pre +:+ sub +:+ post.
Proof.
  split.
  - induction s as [|a s IH]; simpl; intros H.
    + rewrite orb_false_r in H. destruct (startsWith_spec _ _ H) as [post E].
      exists EmptyString, post. exact E.
    + apply orb_true_iff in H as [H|H].
      * destruct (startsWith_spec _ _ H) as [post E].
        exists EmptyString, post. exact E.
      * destruct (IH H) as (pre & post & ->).
        exists (String a pre), post. reflexivity.
  - intros (pre & post & ->). apply includes_app.
Qed.

(** ** Numbers *)

Lemma round_not_finite (y : float) :
  (forall negative m e, Prim2SF y <> S754_finite negative m e) ->
  Math.round y = y.
Proof.
  intros H. unfold Math.round.
  destruct (Prim2SF y) eqn:E; try reflexivity.
  exfalso. eapply H. reflexivity.
Qed.



Lemma is_nan_spec (y : float) : Prim2SF y = S754_nan -> is_nan y = true.
Proof. intros H. unfold is_nan. rewrite FloatAxioms.eqb_spec, H. reflexivity. Qed.


(** When [got] does not know the size, [total] is [undefined] and the
    percent is NaN whatever was transferred. *)
Lemma percent_of_unknown_total (progress : Progress) :
  total progress = None -> is_nan (calculatedPercent progress) = true.
Proof.
  intros H. unfold calculatedPercent. rewrite H. simpl.
  assert (Hsf : Prim2SF ((transferred progress / nan) * 100)%float = S754_nan).
  { rewrite FloatAxioms.mul_spec, FloatAxioms.div_spec.
    destruct (Prim2SF (transferred progress)) as [[]|[]| |[] m e]; reflexivity. }
  rewrite round_not_finite.
  - apply is_nan_spec, Hsf.
  - intros negative m e. rewrite Hsf. discriminate.
Qed.

(** ** The effects of a run *)

Open Scope list_scope.

Lemma count_app (f : Effect -> bool) (l1 l2 : list Effect) :
  count f (l1 ++ l2) = (count f l1 + count f l2)%nat.
Proof.
  induction l1 as [|e l1 IH]; simpl; [reflexivity|].
  destruct (f e); simpl; rewrite IH; reflexivity.
Qed.

Ltac appended :=
  first
    [ exists []; rewrite app_nil_r; split; [|split]; reflexivity
    | eexists; split; [|split];
      [ rewrite <- ?app_assoc; simpl; reflexivity | reflexivity | reflexivity ] ].

Ltac split3 := split; [|split]; try assumption.

Ltac kept := split; [|split]; assumption.

(** The cases of the listener of ['downloadProgress']: the kinds of value
    the callback can be and what calling it gives. *)
Ltac progress_cases cb progress :=
  unfold onDownloadProgress; simpl;
  destruct cb as [| |[]|?|?|?|?]; simpl;
  repeat match goal with
  | |- context [truthyNumber ?x] => destruct (truthyNumber x); simpl
  | |- context [String.eqb ?x EmptyString] =>
      destruct (String.eqb x EmptyString); simpl
  end;
  try match goal with
  | |- context [await (?f progress)] => destruct (f progress) as [[]|]
  end;
  simpl.

(** The cases of [step]: the event, the states of the two streams and of
    the promise, the timer, and the cases of the listeners. *)
Ltac step_cases s ev cb :=
  destruct s as [dc b pp t ws ds pr rt lg un];
  destruct ev as [ev_progress|ev_progress ev_failure|ev_error| | |ev_error|
                 |ev_time];
  simpl;
  [ destruct ds as [[]|]; simpl;
    [ destruct b; progress_cases cb ev_progress | | | ]
  | destruct ds as [[]|]; simpl;
    [ destruct b; progress_cases cb ev_progress | | | ]
  | destruct ds as [[]|]; unfold onDownloadError, reject, destroy; simpl;
    destruct ws as [[]|]; destruct pr as [[]|]; simpl
  | destruct ds as [[]|]; unfold pipeEnd; simpl; destruct ws as [[]|]; simpl
  | idtac
  | unfold listener, onWriteError, reject;
    destruct ws as [[]|]; destruct ds as [?|]; destruct pr as [[]|]; simpl
  | unfold listener, onWriteClose, resolve, afterAwait, clearTimeout;
    destruct ws as [[]|]; destruct ds as [?|]; destruct pr as [[]|];
    destruct t as [[? ? []]|]; simpl
  | unfold timeoutCallback; destruct t as [[st dl []]|]; simpl;
    try (destruct (st + dl <=? ev_time) eqn:Hfire; destruct dc; simpl) ].

Section Properties.

Variable path : PathModule.

(** An event adds effects at the end of the log, and none of them creates a
    stream. *)
Lemma step_log (url : string) (cb : JSValue) (s : State) (ev : Event) :
  exists l,
    log (step path url cb s ev) = log s ++ l /\
    count createsWriteStream l = 0%nat /\
    count opensTransport l = 0%nat.
Proof. step_cases s ev cb; appended. Qed.

Lemma steps_log (url : string) (cb : JSValue) (events : list Event) (s : State) :
  exists l,
    log (fold_left (step path url cb) events s) = log s ++ l /\
    count createsWriteStream l = 0%nat /\
    count opensTransport l = 0%nat.
Proof.
  revert s; induction events as [|ev events IH]; intros s; simpl.
  - exists []. rewrite app_nil_r. auto.
  - destruct (IH (step path url cb s ev)) as (l2 & E2 & C2 & T2).
    destruct (step_log url cb s ev) as (l1 & E1 & C1 & T1).
    exists (l1 ++ l2). rewrite E2, E1, <- app_assoc, !count_app, C1, C2, T1, T2.
    auto.
Qed.

(** ** The reachable states *)

Lemma Inv_download (world : World) (url targetFilePath : string)
    (options : option (gmap string JSValue)) :
  Inv (download path world url targetFilePath options).
Proof.
  unfold download, Inv.
  destruct (mkdirp world) as [error|]; simpl.
  - left. auto.
  - destruct (gotStream world) as [error|];
      destruct (negb _ || negb _); simpl;
      first [ right; right; repeat split; congruence
            | split; auto; left; split; congruence ].
Qed.

Ltac inv_cases :=
  unfold Inv in *; simpl in *;
  repeat match goal with
  | H : _ /\ _ |- _ => destruct H
  | H : _ \/ _ |- _ => destruct H
  | H : exists _, _ |- _ => destruct H
  | H : Some _ = Some _ |- _ => injection H as H
  | H : None = Some _ |- _ => discriminate H
  | H : Some _ = None |- _ => discriminate H
  | H : ?x <> ?x |- _ => exfalso; apply H; reflexivity
  end;
  subst; simpl in *; try congruence.

Ltac inv_solve :=
  simpl;
  first
    [ assumption
    | split; [reflexivity|]; first [ left; split; congruence | right; split; congruence ]
    | repeat split; congruence
    | left; repeat split; congruence
    | right; left; repeat split; eauto; congruence
    | right; right; repeat split; congruence ].

Lemma Inv_step (url : string) (cb : JSValue) (s : State) (ev : Event) :
  Inv s -> Inv (step path url cb s ev).
Proof.
  step_cases s ev cb; intros H; try exact H;
    destruct rt; inv_cases; inv_solve.
Qed.

Lemma Inv_steps (url : string) (cb : JSValue) (events : list Event) (s : State) :
  Inv s -> Inv (fold_left (step path url cb) events s).
Proof.
  revert s; induction events as [|ev events IH]; intros s H; simpl.
  - exact H.
  - apply IH, Inv_step, H.
Qed.

Lemma Inv_run (world : World) (url targetFilePath : string)
    (options : option (gmap string JSValue)) (events : list Event) :
  Inv (run path world url targetFilePath options events).
Proof. apply Inv_steps, Inv_download. Qed.

(** The log of a run is the log of the synchronous prefix followed by
    effects that create no stream. *)
Lemma run_log (world : World) (url targetFilePath : string)
    (options : option (gmap string JSValue)) (events : list Event) :
  exists l,
    log (run path world url targetFilePath options events) =
      log (download path world url targetFilePath options) ++ l /\
    count createsWriteStream l = 0%nat /\
    count opensTransport l = 0%nat.
Proof. apply steps_log. Qed.

Lemma download_log (world : World) (url targetFilePath : string)
    (options : option (gmap string JSValue)) :
  log (download path world url targetFilePath options) =
  match mkdirp world with
  | Some _ => [EMkdirp (dirname path targetFilePath)]
  | None =>
      [EMkdirp (dirname path targetFilePath);
       ECreateWriteStream targetFilePath] ++
      (if waiting (timeout (download path world url targetFilePath options))
       then [ESetTimeout 30000] else []) ++
      EGotStream url (gotOptionsOf (default ∅ options)) ::
      match gotStream world with
      | Some _ => []
      | None => [EPipe]
      end
  end.
Proof.
  unfold download.
  destruct (mkdirp world); simpl; [reflexivity|].
  destruct (gotStream world), (negb _ || negb _); reflexivity.
Qed.

Lemma count_zero_In (f : Effect -> bool) (l : list Effect) (e : Effect) :
  count f l = 0%nat -> In e l -> f e = false.
Proof.
  induction l as [|a l IH]; simpl; [tauto|].
  destruct (f a) eqn:Ea; [discriminate|].
  intros H [->|Hin]; auto.
Qed.

(** Without streams and without a timer no listener exists: events do
    nothing. *)
Lemma step_idle (url : string) (cb : JSValue) (s : State) (ev : Event) :
  writeStream s = None -> downloadStream s = None -> timeout s = None ->
  step path url cb s ev = s.
Proof.
  intros Hw Hd Ht. destruct ev; simpl; rewrite ?Hw, ?Hd, ?Ht; reflexivity.
Qed.

Lemma steps_idle (url : string) (cb : JSValue) (events : list Event) (s : State) :
  writeStream s = None -> downloadStream s = None -> timeout s = None ->
  fold_left (step path url cb) events s = s.
Proof.
  intros Hw Hd Ht. induction events as [|ev events IH]; simpl; [reflexivity|].
  rewrite step_idle; assumption.
Qed.

Lemma run_without_directory (world : World) (url targetFilePath : string)
    (options : option (gmap string JSValue)) (events : list Event)
    (error : JSError) :
  mkdirp world = Some error ->
  run path world url targetFilePath options events =
  set_returned (Rejected error)
    (effect (EMkdirp (dirname path targetFilePath)) initial).
Proof.
  intros He. unfold run.
  assert (Hd : download path world url targetFilePath options =
               set_returned (Rejected error)
                 (effect (EMkdirp (dirname path targetFilePath)) initial))
    by (unfold download; rewrite He; reflexivity).
  rewrite Hd, steps_idle by reflexivity. reflexivity.
Qed.



(** When [got.stream] returned a stream, the call has a transport stream
    ever after. *)
Lemma step_keeps_downloadStream (url : string) (cb : JSValue) (s : State)
    (ev : Event) :
  downloadStream s <> None -> downloadStream (step path url cb s ev) <> None.
Proof. step_cases s ev cb; intros H; congruence. Qed.

Lemma transport_exists (world : World) (url targetFilePath : string)
    (options : option (gmap string JSValue)) (events : list Event) :
  mkdirp world = None -> gotStream world = None ->
  downloadStream (run path world url targetFilePath options events) <> None.
Proof.
  intros Hm Hg. unfold run.
  assert (H : downloadStream (download path world url targetFilePath options)
              <> None).
  { unfold download. rewrite Hm, Hg. simpl. discriminate. }
  revert H. generalize (download path world url targetFilePath options).
  induction events as [|ev events IH]; intros s H; simpl.
  - exact H.
  - apply IH, step_keeps_downloadStream, H.
Qed.

(** When [got.stream] threw, the call has rejected with what it threw, it
    has no transport stream and no listener, and the method never destroys
    the write stream. *)
Lemma thrown_step (url : string) (cb : JSValue) (thrown : JSError) (s : State)
    (ev : Event) :
  let good s :=
    returned s = Rejected thrown /\
    promise s = Some (Rejected thrown) /\
    downloadStream s = None /\
    count destroysWriteStream (log s) = 0%nat /\
    count callsCallback (log s) = 0%nat in
  good s -> good (step path url cb s ev).
Proof.
  step_cases s ev cb; intros (Hr & Hp & Hd & Hc & Hk);
    try discriminate Hd; try discriminate Hp;
    rewrite ?count_app; simpl; repeat split; try assumption; lia.
Qed.

Lemma run_after_throw (world : World) (url targetFilePath : string)
    (options : option (gmap string JSValue)) (events : list Event)
    (error : JSError) :
  mkdirp world = None -> gotStream world = Some error ->
  let s := run path world url targetFilePath options events in
  returned s = Rejected error /\
  promise s = Some (Rejected error) /\
  downloadStream s = None /\
  count destroysWriteStream (log s) = 0%nat /\
  count callsCallback (log s) = 0%nat.
Proof.
  intros Hm Hg s. subst s. unfold run.
  assert (H : let s0 := download path world url targetFilePath options in
              returned s0 = Rejected error /\
              promise s0 = Some (Rejected error) /\
              downloadStream s0 = None /\
              count destroysWriteStream (log s0) = 0%nat /\
              count callsCallback (log s0) = 0%nat).
  { unfold download. rewrite Hm, Hg. simpl.
    destruct (negb _ || negb _); simpl; repeat split. }
  simpl in H. revert H. generalize (download path world url targetFilePath options).
  induction events as [|ev events IH]; intros s H; simpl.
  - exact H.
  - apply IH. apply (thrown_step url _ error s ev H).
Qed.

(** C5, as the code has it.  A call creates at most one write stream and
    calls [got.stream] at most once.  Once the call has settled, the write
    stream is closed or destroyed (or was never created, when the directory
    could not be made), unless [got.stream] threw: then the call has rejected
    with what it threw, no transport stream exists, and the write stream,
    open when the call rejects, is never destroyed by the method.  The
    transport stream is closed when the call succeeds and when it fails with
    a transport error; when the call fails with an error of the write
    stream, the method rejects and leaves the transport stream as it was. *)
Theorem streams_of_a_call (world : World) (url targetFilePath : string)
    (options : option (gmap string JSValue)) (events : list Event) :
  let cb := get (default ∅ options) "getProgressCallback" in
  let s := run path world url targetFilePath options events in
  (count createsWriteStream (log s) <= 1)%nat /\
  (count opensTransport (log s) <= 1)%nat /\
  (settled (returned s) = true ->
   writableClosed (writeStream s) = true \/
   mkdirp world = None /\ gotStream world <> None) /\
  (forall thrown, mkdirp world = None -> gotStream world = Some thrown ->
     returned s = Rejected thrown /\
     downloadStream s = None /\
     count destroysWriteStream (log s) = 0%nat /\
     writeStream (run path world url targetFilePath options []) = Some WOpen) /\
  (returned s = Fulfilled -> readableClosed (downloadStream s) = true) /\
  (forall error,
     let s' := step path url cb s (DownloadError error) in
     returned s = Pending -> settled (returned s') = true ->
     returned s' = Rejected (enrich error) /\
     writeStream s' = Some (WDestroyed (enrich error)) /\
     readableClosed (downloadStream s') = true) /\
  (forall error,
     let s' := step path url cb s (WriteError error) in
     returned s = Pending ->
     returned s' = Rejected error /\
     writeStream s' = Some (WDestroyed error) /\
     downloadStream s' = downloadStream s).
Proof.
  intros cb s.
  pose proof (Inv_run world url targetFilePath options events) as HI.
  fold s in HI.
  destruct (run_log world url targetFilePath options events)
    as (l & El & Cl & Tl).
  fold s in El.
  split; [|split; [|split; [|split; [|split; [|split]]]]].
  - rewrite El, count_app, Cl, download_log.
    destruct (mkdirp world); simpl; [lia|].
    destruct (waiting _), (gotStream world); simpl; lia.
  - rewrite El, count_app, Tl, download_log.
    destruct (mkdirp world); simpl; [lia|].
    destruct (waiting _), (gotStream world); simpl; lia.
  - intros Hs.
    destruct (mkdirp world) as [failure|] eqn:Hm.
    { left. subst s.
      rewrite (run_without_directory world url targetFilePath options events
                 failure Hm). reflexivity. }
    destruct (gotStream world) as [thrown|] eqn:Hg.
    { right. split; [reflexivity|discriminate]. }
    left.
    pose proof (transport_exists world url targetFilePath options events Hm Hg)
      as Hd.
    fold s in Hd. unfold Inv in HI.
    destruct (returned s); simpl in Hs; [discriminate| |].
    + destruct HI as (_ & -> & _). reflexivity.
    + destruct HI as [(_ & _ & Hn & _)|[(_ & (e' & ->) & _)|(_ & _ & Hn)]];
        [contradiction|reflexivity|contradiction].
  - intros thrown Hm Hg.
    destruct (run_after_throw world url targetFilePath options events thrown
                Hm Hg) as (Hr & _ & Hd & Hc & _).
    fold s in Hr, Hd, Hc. repeat split; try assumption.
    unfold run, download. rewrite Hm, Hg. simpl.
    destruct (negb _ || negb _); reflexivity.
  - intros Hr. unfold Inv in HI. rewrite Hr in HI.
    destruct HI as (_ & _ & ->). reflexivity.
  - intros error s' Hp. subst s'. unfold Inv in HI. rewrite Hp in HI.
    destruct s as [dc b pp t ws ds pr rt lg un]; simpl in *. subst rt.
    destruct HI as (-> & [(-> & Hds)|(-> & ->)]); simpl.
    + destruct ds as [[]|]; simpl; try discriminate; try congruence.
      intros _. unfold onDownloadError, reject, destroy; simpl. auto.
    + discriminate.
  - intros error s' Hp. subst s'. unfold Inv in HI. rewrite Hp in HI.
    destruct s as [dc b pp t ws ds pr rt lg un]; simpl in *. subst rt.
    destruct HI as (-> & [(-> & Hds)|(-> & ->)]); simpl; auto.
    destruct ds; [simpl; auto|contradiction].
Qed.

(** C8.  [fs.mkdirp] on the parent directory is the first thing the call
    does, before any stream is opened.  When it fails, the call rejects with
    its error and, whatever happens afterwards, no write stream and no
    transport stream is ever created. *)
Theorem mkdirp_comes_first (world : World) (url targetFilePath : string)
    (options : option (gmap string JSValue)) (events : list Event) :
  let s := run path world url targetFilePath options events in
  (exists rest, log s = EMkdirp (dirname path targetFilePath) :: rest) /\
  (forall error, mkdirp world = Some error ->
     returned s = Rejected error /\
     writeStream s = None /\ downloadStream s = None /\
     log s = [EMkdirp (dirname path targetFilePath)]).
Proof.
  intros s. split.
  - destruct (run_log world url targetFilePath options events) as (l & E & _).
    fold s in E. rewrite E, download_log.
    destruct (mkdirp world); simpl; eauto.
  - intros error He. subst s.
    rewrite (run_without_directory world url targetFilePath options events
               error He).
    simpl. auto.
Qed.

(** C9.  The only call of [got.stream] in a run is made with the caller's
    options without [quiet] and [getProgressCallback]: these two are absent,
    and every other property is there with the value the caller gave. *)
Theorem transport_options (environment : gmap string string) (time : Z)
    (stream : option JSError)
    (url targetFilePath : string) (options : option (gmap string JSValue))
    (events : list Event) :
  let o := default ∅ options in
  let world :=
    {| env := environment; now := time; mkdirp := None;
       gotStream := stream |} in
  let s := run path world url targetFilePath options events in
  In (EGotStream url (gotOptionsOf o)) (log s) /\
  (forall u g, In (EGotStream u g) (log s) -> u = url /\ g = gotOptionsOf o) /\
  gotOptionsOf o !! "quiet" = None /\
  gotOptionsOf o !! "getProgressCallback" = None /\
  (forall k, k <> "quiet" -> k <> "getProgressCallback" ->
     gotOptionsOf o !! k = o !! k).
Proof.
  intros o world s.
  destruct (run_log world url targetFilePath options events) as (l & E & _ & T).
  fold s in E. rewrite download_log in E.
  change (mkdirp world) with (@None JSError) in E. cbv iota in E.
  fold o in E.
  split; [|split; [|split; [|split]]].
  - rewrite E, !in_app_iff. left. right. right. simpl. auto.
  - intros u g Hin. rewrite E, !in_app_iff in Hin.
    destruct Hin as [[Hin|[Hin|Hin]]|Hin].
    + simpl in Hin. destruct Hin as [Hin|[Hin|[]]]; discriminate.
    + destruct (waiting _); simpl in Hin; [destruct Hin as [Hin|[]]; discriminate|tauto].
    + simpl in Hin. destruct Hin as [Hin|Hin].
      * injection Hin as <- <-. auto.
      * unfold world in Hin. simpl in Hin.
        destruct stream; simpl in Hin; [tauto|].
        destruct Hin as [Hin|[]]; discriminate.
    + apply (count_zero_In _ _ _ T) in Hin. discriminate.
  - unfold gotOptionsOf. rewrite lookup_delete_ne by discriminate.
    apply lookup_delete_eq.
  - unfold gotOptionsOf. apply lookup_delete_eq.
  - intros k Hq Hc. unfold gotOptionsOf.
    rewrite !lookup_delete_ne by congruence. reflexivity.
Qed.




(** ** The timer *)

Lemma get_empty (k : string) : get ∅ k = VUndefined.
Proof. unfold get. rewrite lookup_empty. reflexivity. Qed.

(** On the success path the continuation of the [await] runs: the transfer
    is marked complete and the timer does not wait any more. *)
Lemma fulfilled_step (url : string) (cb : JSValue) (s : State) (ev : Event) :
  (returned s = Fulfilled ->
   downloadCompleted s = true /\ waiting (timeout s) = false) ->
  returned (step path url cb s ev) = Fulfilled ->
  downloadCompleted (step path url cb s ev) = true /\
  waiting (timeout (step path url cb s ev)) = false.
Proof.
  step_cases s ev cb; try tauto; try discriminate;
    intros H Hr; destruct (H Hr); discriminate.
Qed.

Lemma fulfilled_clears_timer (world : World) (url targetFilePath : string)
    (options : option (gmap string JSValue)) (events : list Event) :
  let s := run path world url targetFilePath options events in
  returned s = Fulfilled ->
  downloadCompleted s = true /\ waiting (timeout s) = false.
Proof.
  unfold run.
  induction events as [|ev events IH] using rev_ind.
  - simpl. unfold download.
    destruct (mkdirp world); simpl; [discriminate|].
    destruct (gotStream world), (negb _ || negb _); simpl; discriminate.
  - rewrite fold_left_app. simpl. apply fulfilled_step. exact IH.
Qed.

(** C1, on the rejection path.  A call with default options whose transport
    stream fails rejects with the error, and nothing after the [await] of
    line 59 runs: the transfer is not marked complete, [clearTimeout] is not
    called, the timer is still waiting, and when it fires 30 seconds after
    the call it creates a progress bar for a call that has ended. *)
Theorem timer_survives_rejection (environment : gmap string string) (time : Z)
    (url targetFilePath : string) (error : JSError) :
  let world :=
    {| env := environment; now := time; mkdirp := None; gotStream := None |} in
  let s := run path world url targetFilePath None [DownloadError error] in
  let s' := step path url VUndefined s (TimeoutFires (time + 30000)) in
  returned s = Rejected (enrich error) /\
  downloadCompleted s = false /\
  count clearsTimeout (log s) = 0%nat /\
  timeout s =
    Some {| capturedStart := time; delay := 30000; status := TimerWaiting |} /\
  bar s = None /\
  returned s' = Rejected (enrich error) /\
  bar s' <> None.
Proof.
  intros world s s'. subst s' s. unfold run, download. simpl.
  rewrite get_empty. simpl.
  rewrite Z.leb_refl. simpl. repeat split; discriminate.
Qed.

(** When the directory was made, the timer is armed exactly when [quiet] is
    falsy or the environment variable is unset or empty (line 42). *)
Lemma timer_armed (environment : gmap string string) (time : Z)
    (stream : option JSError)
    (url targetFilePath : string) (options : option (gmap string JSValue)) :
  let world :=
    {| env := environment; now := time; mkdirp := None;
       gotStream := stream |} in
  waiting (timeout (download path world url targetFilePath options)) =
  negb (truthy (get (default ∅ options) "quiet"))
  || negb (truthyEnv (environment !! "ELECTRON_GET_NO_PROGRESS")).
Proof.
  unfold download. simpl. destruct stream, (negb _ || negb _); reflexivity.
Qed.

(** C2, where the code departs from it.  With [quiet: true] and the
    environment variable unset the timer is armed, and with the environment
    variable set and [quiet] absent the timer is armed as well: either
    opt-out alone does not suppress the progress bar. *)
Theorem timer_armed_despite_opt_out (time : Z) (url targetFilePath : string) :
  let armed :=
    Some {| capturedStart := time; delay := 30000; status := TimerWaiting |} in
  timeout
    (download path
       {| env := ∅; now := time; mkdirp := None; gotStream := None |}
       url targetFilePath (Some {[ "quiet" := VBoolean true ]})) = armed /\
  timeout
    (download path
       {| env := {[ "ELECTRON_GET_NO_PROGRESS" := "1" ]}; now := time;
          mkdirp := None; gotStream := None |}
       url targetFilePath None) = armed.
Proof. split; reflexivity. Qed.

(** ** The progress bar *)

(** Nothing assigns [progressPercent], a bar is seeded with it, and the
    [start] of a bar is the [start] its timer captured. *)
Lemma bar_step (url : string) (cb : JSValue) (time : Z) (s : State) (ev : Event) :
  let good s :=
    progressPercent s = None /\
    (forall t, timeout s = Some t -> capturedStart t = time) /\
    (forall b, bar s = Some b -> curr b = None /\ start b = time) in
  good s -> good (step path url cb s ev).
Proof.
  step_cases s ev cb; intros (Hp & Ht & Hb); try kept;
    (split;
     [ assumption
     | split;
       [ first
           [ assumption
           | intros t' Ht'; injection Ht' as <-; simpl; apply (Ht _ eq_refl) ]
       | first
           [ assumption
           | intros b' Hb'; injection Hb' as <-; simpl;
             split; [exact Hp | apply (Ht _ eq_refl)] ] ] ]).
Qed.

Lemma bar_of_a_run (world : World) (url targetFilePath : string)
    (options : option (gmap string JSValue)) (events : list Event) :
  let s := run path world url targetFilePath options events in
  progressPercent s = None /\
  (forall t, timeout s = Some t -> capturedStart t = now world) /\
  (forall b, bar s = Some b -> curr b = None /\ start b = now world).
Proof.
  unfold run.
  induction events as [|ev events IH] using rev_ind.
  - simpl. unfold download.
    destruct (mkdirp world); simpl.
    + repeat split; discriminate.
    + destruct (gotStream world), (negb _ || negb _); simpl;
        repeat split; try discriminate;
        intros t Ht; injection Ht as <-; reflexivity.
  - rewrite fold_left_app. simpl. apply bar_step. exact IH.
Qed.

(** The state in which the synchronous prefix leaves the call when the
    directory was made and [got.stream] returned a stream. *)
Lemma download_started (world : World) (url targetFilePath : string)
    (options : option (gmap string JSValue)) :
  mkdirp world = None ->
  gotStream world = None ->
  let armed :=
    negb (truthy (get (default ∅ options) "quiet"))
    || negb (truthyEnv (env world !! "ELECTRON_GET_NO_PROGRESS")) in
  download path world url targetFilePath options =
  {| downloadCompleted := false; bar := None; progressPercent := None;
     timeout :=
       if armed
       then Some {| capturedStart := now world; delay := 30000;
                    status := TimerWaiting |}
       else None;
     writeStream := Some WOpen; downloadStream := Some ROpen;
     promise := Some Pending; returned := Pending;
     log :=
       [EMkdirp (dirname path targetFilePath);
        ECreateWriteStream targetFilePath] ++
       (if armed then [ESetTimeout 30000] else []) ++
       [EGotStream url (gotOptionsOf (default ∅ options)); EPipe];
     unhandledRejections := [] |}.
Proof.
  intros Hm Hg armed. unfold download. rewrite Hm, Hg. fold armed.
  destruct armed; reflexivity.
Qed.

(** Without a bar and without a callback a transfer-progress event changes
    nothing. *)
Lemma progress_unobserved (url : string) (cb : JSValue) (progress : Progress)
    (s : State) :
  bar s = None -> truthy cb = false ->
  step path url cb s (DownloadProgress progress) = s.
Proof.
  intros Hb Hc. simpl. destruct (downloadStream s) as [[]|]; try reflexivity.
  unfold onDownloadProgress. rewrite Hb, Hc. reflexivity.
Qed.

(** C4, where the code departs from it.  A transfer-progress event of 50
    out of 100 bytes is observed (line 62 computes 50), then the timer fires:
    the bar is created with [curr: undefined], so it starts at 0 and not at
    50.  Its [start] is the time at which the timer was armed. *)
Theorem bar_seed_ignores_progress (environment : gmap string string)
    (time : Z) (url targetFilePath : string) :
  let world :=
    {| env := environment; now := time; mkdirp := None; gotStream := None |} in
  let s :=
    run path world url targetFilePath None
      [DownloadProgress half; TimeoutFires (time + 30000 + 7)] in
  calculatedPercent half = 50%float /\
  exists b,
    bar s = Some b /\ curr b = None /\ seed b = 0%float /\ start b = time.
Proof.
  intros world s. split; [vm_compute; reflexivity|].
  subst s. unfold run. cbn [fold_left].
  change (default ∅ None) with (∅ : gmap string JSValue).
  rewrite !get_empty.
  rewrite (download_started world url targetFilePath None eq_refl eq_refl).
  change (default ∅ None) with (∅ : gmap string JSValue).
  rewrite !get_empty.
  rewrite progress_unobserved by reflexivity.
  unfold timeoutCallback. simpl.
  assert (Hfire : (time + 30000 <=? time + 30000 + 7) = true)
    by (apply Z.leb_le; lia).
  rewrite Hfire. simpl. eexists. split; [reflexivity|]. simpl. auto.
Qed.

(** ** The caller's callback *)

Lemma callbacks_app (l1 l2 : list Effect) :
  callbacks (l1 ++ l2) = callbacks l1 ++ callbacks l2.
Proof.
  induction l1 as [|e l1 IH]; simpl; [reflexivity|].
  destruct e; simpl; rewrite IH; reflexivity.
Qed.

Lemma barUpdates_app (l1 l2 : list Effect) :
  barUpdates (l1 ++ l2) = barUpdates l1 ++ barUpdates l2.
Proof.
  induction l1 as [|e l1 IH]; simpl; [reflexivity|].
  destruct e; simpl; rewrite IH; reflexivity.
Qed.

(** What the callback does has no influence on what the method can read:
    two runs over the same events with different callbacks agree on
    everything but the log and the unhandled rejections. *)
Lemma core_step (url : string) (cb1 cb2 : JSValue) (s1 s2 : State) (ev : Event) :
  core s1 = core s2 ->
  core (step path url cb1 s1 ev) = core (step path url cb2 s2 ev).
Proof.
  destruct s1 as [dc b pp t ws ds pr rt lg1 un1].
  destruct s2 as [dc2 b2 pp2 t2 ws2 ds2 pr2 rt2 lg2 un2].
  unfold core at 1 2. simpl. intros H.
  injection H as <- <- <- <- <- <- <- <-.
  destruct ev as [progress|progress failure|error| | |error| |time]; simpl.
  - destruct ds as [[]|]; try reflexivity.
    destruct b; progress_cases cb1 progress; progress_cases cb2 progress;
      reflexivity.
  - destruct ds as [[]|]; try reflexivity.
    destruct b; progress_cases cb1 progress; progress_cases cb2 progress;
      reflexivity.
  - destruct ds as [[]|]; try reflexivity.
    unfold onDownloadError, reject, destroy; simpl.
    destruct ws as [[]|], pr as [[]|]; reflexivity.
  - destruct ds as [[]|]; try reflexivity.
    unfold pipeEnd; simpl. destruct ws as [[]|]; reflexivity.
  - reflexivity.
  - unfold listener, onWriteError, reject.
    destruct ws as [[]|], ds, pr as [[]|]; reflexivity.
  - unfold listener, onWriteClose, resolve, afterAwait, clearTimeout.
    destruct ws as [[]|], ds, pr as [[]|], t as [[? ? []]|]; reflexivity.
  - unfold timeoutCallback.
    destruct t as [[st dl []]|]; simpl; try reflexivity.
    destruct (st + dl <=? time), dc; reflexivity.
Qed.

Lemma core_steps (url : string) (cb1 cb2 : JSValue) (events : list Event)
    (s1 s2 : State) :
  core s1 = core s2 ->
  core (fold_left (step path url cb1) events s1) =
  core (fold_left (step path url cb2) events s2).
Proof.
  revert s1 s2; induction events as [|ev events IH]; intros s1 s2 H; simpl.
  - exact H.
  - apply IH, core_step, H.
Qed.

Lemma outcome_ignores_callback (world : World) (url targetFilePath : string)
    (options : gmap string JSValue) (cb : JSValue) (events : list Event) :
  core (run path world url targetFilePath
          (Some (<[ "getProgressCallback" := cb ]> options)) events) =
  core (run path world url targetFilePath
          (Some (delete "getProgressCallback" options)) events).
Proof.
  unfold run. apply core_steps. unfold download. simpl.
  assert (Hq : get (<[ "getProgressCallback" := cb ]> options) "quiet" =
               get (delete "getProgressCallback" options) "quiet").
  { unfold get. rewrite lookup_insert_ne, lookup_delete_ne by discriminate.
    reflexivity. }
  rewrite Hq.
  destruct (mkdirp world); [reflexivity|].
  destruct (gotStream world), (negb _ || negb _); reflexivity.
Qed.

(** C3, as the code has it.  When the configured callback throws, or the
    promise it returns rejects, on a transfer-progress event, the rejection
    stays with the promise of the listener, which nothing handles: the
    callback was called (when it is a function: calling anything else throws
    before a call is made), and the promise of the call, the write stream and
    the transport stream are as they were before the event; in particular
    the write stream is not destroyed. *)
Theorem callback_failure_is_dropped (url : string) (cb : JSValue)
    (progress : Progress) (error : JSError) (s : State) :
  truthy cb = true ->
  await (call cb progress) = Rejected error ->
  downloadStream s = Some ROpen ->
  let s' := step path url cb s (DownloadProgress progress) in
  (isFunction cb = true -> In (ECallback progress) (log s')) /\
  unhandledRejections s' = unhandledRejections s ++ [error] /\
  returned s' = returned s /\
  promise s' = promise s /\
  writeStream s' = writeStream s /\
  downloadStream s' = downloadStream s /\
  count destroysWriteStream (log s') = count destroysWriteStream (log s).
Proof.
  intros Hcb Hfail Hopen s'. subst s'. simpl. rewrite Hopen.
  unfold onDownloadProgress. rewrite Hcb, Hfail.
  destruct (bar s), cb; simpl; rewrite ?in_app_iff, ?count_app; simpl;
    repeat split; intros; auto; try discriminate; lia.
Qed.

(** ** Transport errors *)

(** C6, as the code has it.  On every error of the transport stream the
    listener first destroys the write stream with the error and then rejects
    with it; the call rejects with this error unless it had settled before.
    For an [HTTPError] with status 404 the error's message was extended by
    [" for "] and the URL of the response, so the message contains the
    response's URL. *)
Theorem transport_error_rejects (url : string) (cb : JSValue)
    (error : JSError) (s : State) :
  downloadStream s = Some ROpen ->
  let s' := step path url cb s (DownloadError error) in
  let error' := enrich error in
  log s' = log s ++ [EDestroyWriteStream error'; EReject error'] /\
  (promise s = Some Pending -> returned s' = Rejected error') /\
  (writableClosed (writeStream s) = false ->
   writeStream s' = Some (WDestroyed error')) /\
  (forall r, response error = Some r -> statusCode r = 404 ->
     message error' = message error +:+ " for " +:+ responseUrl r /\
     includes (message error') (responseUrl r) = true).
Proof.
  intros Hopen s' error'. subst s'. simpl. rewrite Hopen.
  unfold onDownloadError, reject, destroy. fold error'.
  destruct s as [dc b pp t ws ds pr rt lg un]; simpl in *.
  split; [|split; [|split]].
  - destruct ws as [[]|], pr as [[]|]; simpl; rewrite <- app_assoc; reflexivity.
  - intros ->. destruct ws as [[]|]; reflexivity.
  - destruct ws as [[]|], pr as [[]|]; simpl; intros; congruence.
  - intros r Hr H404. subst error'. unfold enrich.
    rewrite Hr. apply Z.eqb_eq in H404. rewrite H404. simpl.
    split; [reflexivity|].
    apply includes_app_r, (includes_app_r " for "), includes_refl.
Qed.

(** ** A total of zero *)


End Properties.

(** * Concrete runs *)

(** C3 fails as stated: the callback rejects on a transfer-progress event,
    and the call stays pending with its write stream open; when the transfer
    then completes the call succeeds, and the write stream was never
    destroyed. *)
Lemma callback_failure_does_not_fail_download :
  let s1 :=
    run samplePath quietWorld "http://a/x" "/tmp/d/f" withFailingCallback
      [DownloadProgress half] in
  let s2 :=
    run samplePath quietWorld "http://a/x" "/tmp/d/f" withFailingCallback
      [DownloadProgress half; DownloadEnd; WriteClose] in
  await (call failingCallback half) = Rejected boom /\
  count callsCallback (log s1) = 1%nat /\
  returned s1 = Pending /\
  writeStream s1 = Some WOpen /\
  returned s2 = Fulfilled /\
  writeStream s2 = Some WClosed /\
  count destroysWriteStream (log s2) = 0%nat.
Proof. vm_compute. repeat split. Qed.

(** [callback_failure_is_dropped] at the first event of a call whose
    callback rejects. *)
Lemma callback_failure_is_dropped_witness :
  let s :=
    download samplePath quietWorld "http://a/x" "/tmp/d/f" withFailingCallback in
  let s' :=
    step samplePath "http://a/x" failingCallback s (DownloadProgress half) in
  (truthy failingCallback = true /\
   await (call failingCallback half) = Rejected boom /\
   downloadStream s = Some ROpen) /\
  In (ECallback half) (log s') /\
  unhandledRejections s' = unhandledRejections s ++ [boom] /\
  returned s' = returned s /\
  promise s' = promise s /\
  writeStream s' = writeStream s /\
  downloadStream s' = downloadStream s /\
  count destroysWriteStream (log s') = count destroysWriteStream (log s).
Proof.
  intros s s'.
  assert (H : truthy failingCallback = true /\
              await (call failingCallback half) = Rejected boom /\
              downloadStream s = Some ROpen)
    by (vm_compute; repeat split).
  split; [exact H|].
  destruct H as (H1 & H2 & H3).
  destruct (callback_failure_is_dropped samplePath "http://a/x"
              failingCallback half boom s H1 H2 H3) as [Hcalled Hrest].
  split; [exact (Hcalled eq_refl)|exact Hrest].
Defined.

(** C5 fails as stated: the write stream fails, the call rejects with its
    error, and the transport stream is still open. *)
Lemma write_error_leaves_transport_open :
  let s :=
    run samplePath quietWorld "http://a/x" "/tmp/d/f" None [WriteError boom] in
  returned s = Rejected boom /\
  writeStream s = Some (WDestroyed boom) /\
  downloadStream s = Some ROpen /\
  readableClosed (downloadStream s) = false.
Proof. vm_compute. repeat split. Qed.

(** [streams_of_a_call] at a call whose transport stream fails first, and at
    a call whose URL [got.stream] refuses. *)
Lemma streams_of_a_call_witness :
  let s := run samplePath quietWorld "http://a/x" "/tmp/d/f" None [] in
  let s' := step samplePath "http://a/x" VUndefined s (DownloadError boom) in
  let thrown :=
    run samplePath invalidUrlWorld "not a url" "/tmp/d/f" None
      [TimeoutFires 31000] in
  (returned s = Pending /\
   settled (returned s') = true /\
   returned s' = Rejected boom /\
   writeStream s' = Some (WDestroyed boom) /\
   readableClosed (downloadStream s') = true) /\
  (mkdirp invalidUrlWorld = None /\
   gotStream invalidUrlWorld = Some invalidUrl /\
   returned thrown = Rejected invalidUrl /\
   downloadStream thrown = None /\
   count destroysWriteStream (log thrown) = 0%nat /\
   writeStream
     (run samplePath invalidUrlWorld "not a url" "/tmp/d/f" None [])
   = Some WOpen).
Proof.
  intros s s' thrown. split.
  - assert (H : returned s = Pending /\ settled (returned s') = true)
      by (vm_compute; split; reflexivity).
    destruct H as [Hp Hs].
    split; [exact Hp|]. split; [exact Hs|].
    destruct (streams_of_a_call samplePath quietWorld "http://a/x" "/tmp/d/f"
                None []) as (_ & _ & _ & _ & _ & Herr & _).
    exact (Herr boom Hp Hs).
  - split; [reflexivity|]. split; [reflexivity|].
    destruct (streams_of_a_call samplePath invalidUrlWorld "not a url"
                "/tmp/d/f" None [TimeoutFires 31000])
      as (_ & _ & _ & Hthrown & _).
    exact (Hthrown invalidUrl eq_refl eq_refl).
Defined.

(** C6 fails as stated: the request for [http://a/x] was redirected, the
    response with status 404 came from [http://b/y], and the message of the
    error the call rejects with names [http://b/y], not the requested URL. *)
Lemma not_found_message_names_response_url :
  let s :=
    run samplePath quietWorld "http://a/x" "/tmp/d/f" None
      [DownloadError notFound] in
  (statusCode <$> response notFound) = Some 404 /\
  returned s =
    Rejected
      {| response := response notFound;
         message := "Response code 404 (Not Found) for http://b/y" |} /\
  includes "Response code 404 (Not Found) for http://b/y" "http://a/x" = false /\
  includes "Response code 404 (Not Found) for http://b/y" "http://b/y" = true.
Proof. vm_compute. repeat split. Qed.

(** [transport_error_rejects] at a response with status 404. *)
Lemma transport_error_rejects_witness :
  let s := download samplePath quietWorld "http://a/x" "/tmp/d/f" None in
  let s' := step samplePath "http://a/x" VUndefined s (DownloadError notFound) in
  let error' := enrich notFound in
  downloadStream s = Some ROpen /\
  log s' = log s ++ [EDestroyWriteStream error'; EReject error'] /\
  (promise s = Some Pending -> returned s' = Rejected error') /\
  (writableClosed (writeStream s) = false ->
   writeStream s' = Some (WDestroyed error')) /\
  (forall r, response notFound = Some r -> statusCode r = 404 ->
     message error' = message notFound +:+ " for " +:+ responseUrl r /\
     includes (message error') (responseUrl r) = true).
Proof.
  intros s s' error'.
  assert (H : downloadStream s = Some ROpen) by (vm_compute; reflexivity).
  split; [exact H|].
  exact (transport_error_rejects samplePath "http://a/x" VUndefined notFound s H).
Defined.




(** * Further properties of the method *)

Section Outcome.

Variable path : PathModule.

(** ** The first settlement is final *)

Lemma settled_step (url : string) (cb : JSValue) (s : State) (ev : Event) :
  promise s <> Some Pending ->
  returned (step path url cb s ev) = returned s /\
  promise (step path url cb s ev) = promise s.
Proof.
  step_cases s ev cb; intros H; try (split; reflexivity); congruence.
Qed.

Lemma Inv_settled (s : State) :
  Inv s -> settled (returned s) = true -> promise s <> Some Pending.
Proof.
  unfold Inv. destruct (returned s); simpl; try discriminate; intros H _.
  - destruct H as (-> & _). discriminate.
  - destruct H as [(-> & _)|[(-> & _)|(-> & _)]]; discriminate.
Qed.

Lemma settled_steps (url : string) (cb : JSValue) (more : list Event) (s : State) :
  promise s <> Some Pending ->
  returned (fold_left (step path url cb) more s) = returned s.
Proof.
  revert s; induction more as [|ev more IH]; intros s H; simpl; [reflexivity|].
  destruct (settled_step url cb s ev H) as [Hr Hp].
  rewrite IH by (rewrite Hp; exact H). exact Hr.
Qed.

(** X1.  Once a call has settled, no later event changes its outcome: a
    rejection is not turned into success by the ['close'] that follows the
    destruction of the write stream, and a later error does not replace the
    first one. *)
Theorem first_settlement_is_final (world : World) (url targetFilePath : string)
    (options : option (gmap string JSValue)) (events more : list Event) :
  settled (returned (run path world url targetFilePath options events)) = true ->
  returned (run path world url targetFilePath options (events ++ more)) =
  returned (run path world url targetFilePath options events).
Proof.
  intros H. unfold run. rewrite fold_left_app.
  apply settled_steps. apply Inv_settled; [apply Inv_run|exact H].
Qed.

End Outcome.

Section Bar.

Variable path : PathModule.

(** ** The progress bar and its timer *)

Lemma one_bar_step (url : string) (cb : JSValue) (s : State) (ev : Event) :
  let good s :=
    (count createsBar (log s) <= 1)%nat /\
    (waiting (timeout s) = true -> count createsBar (log s) = 0%nat) in
  good s -> good (step path url cb s ev).
Proof.
  step_cases s ev cb; intros [H1 H2]; rewrite ?count_app; simpl;
    try specialize (H2 eq_refl);
    (split; [lia | intros Hw; first [discriminate | lia | (specialize (H2 Hw); lia)]]).
Qed.

(** X2.  A call creates at most one progress bar, whatever the events and
    however often the environment reports the timer. *)
Theorem at_most_one_bar (world : World) (url targetFilePath : string)
    (options : option (gmap string JSValue)) (events : list Event) :
  (count createsBar
     (log (run path world url targetFilePath options events)) <= 1)%nat.
Proof.
  unfold run.
  assert (H : (count createsBar
                 (log (download path world url targetFilePath options))
               <= 1)%nat /\
              (waiting (timeout (download path world url targetFilePath options))
               = true ->
               count createsBar
                 (log (download path world url targetFilePath options)) = 0%nat)).
  { rewrite download_log. destruct (mkdirp world); simpl; [split; auto|].
    destruct (waiting _), (gotStream world); simpl; split; auto. }
  revert H. generalize (download path world url targetFilePath options).
  induction events as [|ev events IH]; intros s H; simpl.
  - apply H.
  - apply IH. apply (one_bar_step url _ s ev H).
Qed.

Lemma no_bar_step (url : string) (cb : JSValue) (limit : Z) (s : State)
    (ev : Event) :
  let good s :=
    bar s = None /\
    count createsBar (log s) = 0%nat /\
    count updatesBar (log s) = 0%nat /\
    (forall t, timeout s = Some t -> capturedStart t + delay t = limit) in
  good s -> before limit ev = true -> good (step path url cb s ev).
Proof.
  step_cases s ev cb; intros (Hb & Hc & Hu & Ht) Hev;
    try discriminate Hb; rewrite ?count_app; simpl;
    try (pose proof (Ht _ eq_refl) as Hl; simpl in Hl;
         apply Z.leb_le in Hfire; apply Z.ltb_lt in Hev; lia);
    (split; [|split; [|split]]; try assumption; try lia;
     intros t' Ht'; first [discriminate Ht' | injection Ht' as <-];
     simpl; apply (Ht _ eq_refl)).
Qed.

(** X3.  As long as the timer has not fired 30 seconds or more after the
    call, the call shows nothing on the console: no progress bar exists, none
    was created, and no bar update was made, whatever transfer-progress
    events arrived. *)
Theorem no_bar_before_the_delay (world : World) (url targetFilePath : string)
    (options : option (gmap string JSValue)) (events : list Event) :
  forallb (before (now world + 30000)) events = true ->
  let s := run path world url targetFilePath options events in
  bar s = None /\
  count createsBar (log s) = 0%nat /\
  count updatesBar (log s) = 0%nat.
Proof.
  intros Hev s. subst s. unfold run.
  assert (H : bar (download path world url targetFilePath options) = None /\
              count createsBar
                (log (download path world url targetFilePath options)) = 0%nat /\
              count updatesBar
                (log (download path world url targetFilePath options)) = 0%nat /\
              (forall t,
                 timeout (download path world url targetFilePath options) = Some t ->
                 capturedStart t + delay t = now world + 30000)).
  { unfold download. destruct (mkdirp world); simpl.
    - repeat split; discriminate.
    - destruct (gotStream world), (negb _ || negb _); simpl;
        repeat split; try discriminate;
        intros t Ht; injection Ht as <-; reflexivity. }
  revert H Hev. generalize (download path world url targetFilePath options).
  induction events as [|ev events IH]; intros s H Hev; simpl in *.
  - destruct H as (Hb & Hc & Hu & _). auto.
  - apply andb_true_iff in Hev as [Hev Hrest].
    apply IH; [|exact Hrest].
    apply (no_bar_step url _ (now world + 30000) s ev H Hev).
Qed.

Lemma opted_out_step (url : string) (cb : JSValue) (s : State) (ev : Event) :
  let good s :=
    timeout s = None /\ bar s = None /\
    count setsTimeout (log s) = 0%nat /\
    count createsBar (log s) = 0%nat /\
    count updatesBar (log s) = 0%nat in
  good s -> good (step path url cb s ev).
Proof.
  step_cases s ev cb; intros (Ht & Hb & H1 & H2 & H3);
    try discriminate Ht; try discriminate Hb; rewrite ?count_app; simpl;
    repeat split; try assumption; lia.
Qed.

(** X4.  When [quiet] is truthy and the environment variable is set to a
    non-empty value, no timer is armed and no progress bar is ever created or
    updated, whatever the events. *)
Theorem both_opt_outs_silence_the_bar (world : World)
    (url targetFilePath : string) (options : option (gmap string JSValue))
    (events : list Event) :
  truthy (get (default ∅ options) "quiet") = true ->
  truthyEnv (env world !! "ELECTRON_GET_NO_PROGRESS") = true ->
  let s := run path world url targetFilePath options events in
  timeout s = None /\ bar s = None /\
  count setsTimeout (log s) = 0%nat /\
  count createsBar (log s) = 0%nat /\
  count updatesBar (log s) = 0%nat.
Proof.
  intros Hq He s. subst s. unfold run.
  assert (H : let s0 := download path world url targetFilePath options in
              timeout s0 = None /\ bar s0 = None /\
              count setsTimeout (log s0) = 0%nat /\
              count createsBar (log s0) = 0%nat /\
              count updatesBar (log s0) = 0%nat).
  { unfold download. rewrite Hq, He.
    destruct (mkdirp world); simpl; [repeat split|].
    destruct (gotStream world); simpl; repeat split. }
  simpl in H. revert H.
  generalize (download path world url targetFilePath options).
  induction events as [|ev events IH]; intros s H; simpl.
  - exact H.
  - apply IH. apply (opted_out_step url _ s ev H).
Qed.

Lemma spent_timer_step (url : string) (cb : JSValue) (s : State) (ev : Event) :
  waiting (timeout s) = false ->
  bar (step path url cb s ev) = bar s /\
  count createsBar (log (step path url cb s ev)) = count createsBar (log s) /\
  waiting (timeout (step path url cb s ev)) = false.
Proof.
  step_cases s ev cb; intros H; try discriminate H; rewrite ?count_app; simpl;
    repeat split; try assumption; lia.
Qed.

Lemma spent_timer_steps (url : string) (cb : JSValue) (more : list Event)
    (s : State) :
  waiting (timeout s) = false ->
  bar (fold_left (step path url cb) more s) = bar s /\
  count createsBar (log (fold_left (step path url cb) more s)) =
  count createsBar (log s).
Proof.
  revert s; induction more as [|ev more IH]; intros s H; simpl; [auto|].
  destruct (spent_timer_step url cb s ev H) as (Hb & Hc & Hw).
  destruct (IH _ Hw) as [Hb' Hc']. rewrite Hb', Hc'. auto.
Qed.

(** X5.  After a call has fulfilled, nothing creates a progress bar any
    more: the bar and the number of bars created stay as they were, also
    when the timer's time comes. *)
Theorem no_bar_after_success (world : World) (url targetFilePath : string)
    (options : option (gmap string JSValue)) (events more : list Event) :
  returned (run path world url targetFilePath options events) = Fulfilled ->
  let s := run path world url targetFilePath options events in
  let s' := run path world url targetFilePath options (events ++ more) in
  bar s' = bar s /\
  count createsBar (log s') = count createsBar (log s).
Proof.
  intros H s s'. subst s s'.
  destruct (fulfilled_clears_timer path world url targetFilePath options events H)
    as [_ Hw].
  unfold run in *. rewrite fold_left_app.
  apply spent_timer_steps. exact Hw.
Qed.

End Bar.


Section Events.

Variable path : PathModule.

(** ** The transfer-progress events *)

(** X7.  A transfer-progress event changes no variable of the call: not the
    streams, the promises, the timer or the bar, and not [progressPercent];
    it only adds to the log and to the unhandled rejections. *)
Theorem progress_changes_nothing (url : string) (cb : JSValue)
    (progress : Progress) (s : State) :
  core (step path url cb s (DownloadProgress progress)) = core s.
Proof.
  destruct s as [dc b pp t ws ds pr rt lg un]. simpl.
  destruct ds as [[]|]; try reflexivity.
  destruct b; progress_cases cb progress; reflexivity.
Qed.

(** The same holds when [bar.update] throws during the event. *)
Lemma failed_update_changes_nothing (url : string) (cb : JSValue)
    (progress : Progress) (failure : JSError) (s : State) :
  core (step path url cb s (DownloadProgressUpdateFails progress failure))
  = core s.
Proof.
  destruct s as [dc b pp t ws ds pr rt lg un]. simpl.
  destruct ds as [[]|]; try reflexivity.
  destruct b; progress_cases cb progress; reflexivity.
Qed.

(** ** The timer and the transfer *)

Lemma transfer_step (url : string) (cb : JSValue) (s1 s2 : State) (ev : Event) :
  transfer s1 = transfer s2 ->
  transfer (step path url cb s1 ev) = transfer (step path url cb s2 ev).
Proof.
  destruct s1 as [dc b pp t ws ds pr rt lg un].
  destruct s2 as [dc2 b2 pp2 t2 ws2 ds2 pr2 rt2 lg2 un2].
  unfold transfer at 1 2. simpl. intros H.
  injection H as <- <- <- <- <-.
  destruct ev as [progress|progress failure|error| | |error| |time]; simpl.
  - destruct ds as [[]|]; try reflexivity.
    destruct b, b2; progress_cases cb progress; reflexivity.
  - destruct ds as [[]|]; try reflexivity.
    destruct b, b2; progress_cases cb progress; reflexivity.
  - destruct ds as [[]|]; try reflexivity.
    unfold onDownloadError, reject, destroy; simpl.
    destruct ws as [[]|], pr as [[]|]; reflexivity.
  - destruct ds as [[]|]; try reflexivity.
    unfold pipeEnd; simpl. destruct ws as [[]|]; reflexivity.
  - reflexivity.
  - unfold listener, onWriteError, reject.
    destruct ws as [[]|], ds, pr as [[]|]; reflexivity.
  - unfold listener, onWriteClose, resolve, afterAwait, clearTimeout.
    destruct ws as [[]|], ds, pr as [[]|], t as [[? ? []]|],
      t2 as [[? ? []]|]; reflexivity.
  - unfold timeoutCallback.
    destruct t as [[st dl []]|], t2 as [[st2 dl2 []]|]; simpl;
      try reflexivity;
      repeat match goal with
             | |- context [?a <=? ?b] => destruct (a <=? b)
             end;
      destruct dc; reflexivity.
Qed.

Lemma transfer_timer (url : string) (cb : JSValue) (s : State) (time : Z) :
  transfer (step path url cb s (TimeoutFires time)) = transfer s.
Proof.
  destruct s as [dc b pp t ws ds pr rt lg un]. simpl.
  unfold timeoutCallback.
  destruct t as [[st dl []]|]; simpl; try reflexivity.
  destruct (st + dl <=? time), dc; reflexivity.
Qed.

Lemma transfer_steps (url : string) (cb : JSValue) (events : list Event)
    (s1 s2 : State) :
  transfer s1 = transfer s2 ->
  transfer (fold_left (step path url cb) events s1) =
  transfer (fold_left (step path url cb) (withoutTimer events) s2).
Proof.
  revert s1 s2; induction events as [|ev events IH]; intros s1 s2 H.
  - exact H.
  - destruct ev; cbn [fold_left withoutTimer];
      try (apply IH, transfer_step, H).
    apply IH. rewrite transfer_timer. exact H.
Qed.

(** X8.  The timer is advisory: the streams, the promises, the outcome of
    the call and the completion flag of a run are those of the same run
    without the timer's events. *)
Theorem timer_does_not_touch_the_transfer (world : World)
    (url targetFilePath : string) (options : option (gmap string JSValue))
    (events : list Event) :
  transfer (run path world url targetFilePath options events) =
  transfer (run path world url targetFilePath options (withoutTimer events)).
Proof. unfold run. apply transfer_steps. reflexivity. Qed.

End Events.

Section Settlement.

Variable path : PathModule.

(** ** How a call settles *)

Lemma Ready_download (world : World) (url targetFilePath : string)
    (options : option (gmap string JSValue)) :
  Ready (download path world url targetFilePath options).
Proof.
  unfold Ready, download.
  destruct (mkdirp world); simpl; [discriminate|].
  destruct (gotStream world), (negb _ || negb _); simpl; auto; discriminate.
Qed.

Lemma Ready_step (url : string) (cb : JSValue) (s : State) (ev : Event) :
  Ready s -> Ready (step path url cb s ev).
Proof.
  unfold Ready.
  step_cases s ev cb; intros HR Hp; try discriminate Hp;
    destruct (HR Hp) as (Hpr & [(Hw & Hd)|(Hw & Hd)]);
    try discriminate Hpr; try discriminate Hw; try discriminate Hd;
    auto.
Qed.

Lemma Ready_run (world : World) (url targetFilePath : string)
    (options : option (gmap string JSValue)) (events : list Event) :
  Ready (run path world url targetFilePath options events).
Proof.
  unfold run.
  generalize (Ready_download world url targetFilePath options).
  generalize (download path world url targetFilePath options).
  induction events as [|ev events IH]; intros s H; simpl.
  - exact H.
  - apply IH, Ready_step, H.
Qed.

(** X9.  A pending call whose transport stream then ends and whose write
    stream then closes fulfils: both streams are closed, the transfer is
    marked complete and the timer does not wait any more. *)
Theorem end_and_close_fulfil (world : World) (url targetFilePath : string)
    (options : option (gmap string JSValue)) (events : list Event) :
  returned (run path world url targetFilePath options events) = Pending ->
  let s' :=
    run path world url targetFilePath options
      (events ++ [DownloadEnd; WriteClose]) in
  returned s' = Fulfilled /\
  writeStream s' = Some WClosed /\
  downloadStream s' = Some REnded /\
  downloadCompleted s' = true /\
  waiting (timeout s') = false.
Proof.
  intros Hp s'. subst s'.
  pose proof (Ready_run world url targetFilePath options events) as HR.
  unfold run in *. rewrite fold_left_app.
  revert Hp HR.
  generalize (fold_left
                (step path url (get (default ∅ options) "getProgressCallback"))
                events (download path world url targetFilePath options)).
  intros s Hp HR. destruct (HR Hp) as (Hpr & Hshape).
  destruct s as [dc b pp t ws ds pr rt lg un]; simpl in *. subst pr rt.
  destruct Hshape as [(-> & ->)|(-> & ->)]; simpl;
    unfold listener, onWriteClose, resolve, afterAwait, clearTimeout; simpl;
    destruct t as [[? ? []]|]; simpl; auto.
Qed.

Lemma clears_step (url : string) (cb : JSValue) (s : State) (ev : Event) :
  let good s :=
    Ready s /\
    count clearsTimeout (log s) =
    match returned s, timeout s with
    | Fulfilled, Some _ => 1%nat
    | _, _ => 0%nat
    end in
  Inv s -> good s -> good (step path url cb s ev).
Proof.
  intros good HI [HR HC]. split; [apply Ready_step, HR|].
  pose proof (fun H => Inv_settled s HI H) as Hset.
  unfold Ready in HR. revert HR HC Hset. clear HI.
  step_cases s ev cb; intros HR HC Hset; rewrite ?count_app; simpl;
    try (destruct rt; simpl in *; lia);
    try (exfalso; destruct rt;
         [ destruct (HR eq_refl) as (Hpr & _); discriminate Hpr
         | apply (Hset eq_refl); reflexivity
         | apply (Hset eq_refl); reflexivity ]);
    try (destruct rt; simpl in *;
         first [ lia | exfalso; apply (Hset eq_refl); reflexivity ]).
Qed.

(** X10.  [clearTimeout] is called exactly once in a run that fulfilled with
    a timer armed, and never in any other run. *)
Theorem timer_cleared_once_on_success (world : World)
    (url targetFilePath : string) (options : option (gmap string JSValue))
    (events : list Event) :
  let s := run path world url targetFilePath options events in
  count clearsTimeout (log s) =
  match returned s, timeout s with
  | Fulfilled, Some _ => 1%nat
  | _, _ => 0%nat
  end.
Proof.
  intros s. subst s. unfold run.
  assert (H : Ready (download path world url targetFilePath options) /\
              count clearsTimeout
                (log (download path world url targetFilePath options)) =
              match returned (download path world url targetFilePath options),
                    timeout (download path world url targetFilePath options)
              with
              | Fulfilled, Some _ => 1%nat
              | _, _ => 0%nat
              end).
  { split; [apply Ready_download|]. unfold download.
    destruct (mkdirp world); simpl; [reflexivity|].
    destruct (gotStream world), (negb _ || negb _); reflexivity. }
  pose proof (Inv_download path world url targetFilePath options) as HI.
  revert H HI. generalize (download path world url targetFilePath options).
  induction events as [|ev events IH]; intros s H HI; simpl.
  - apply H.
  - apply IH.
    + apply (clears_step url _ s ev HI H).
    + apply Inv_step, HI.
Qed.



Lemma clean_step (url : string) (cb : JSValue) (s : State) (ev : Event) :
  let good s :=
    match returned s with
    | Rejected _ => True
    | _ =>
        count callsReject (log s) = 0%nat /\
        count destroysWriteStream (log s) = 0%nat
    end in
  Inv s -> good s -> good (step path url cb s ev).
Proof.
  unfold Inv.
  step_cases s ev cb; intros HI HG; rewrite ?count_app; simpl;
    destruct rt; simpl in *; auto;
    try (destruct HG; split; lia);
    try (exfalso; destruct HI as (? & ? & ?); congruence);
    try (exfalso; destruct HI as (? & [(? & ?)|(? & ?)]); congruence);
    try (exfalso; destruct HI as [(? & ?)|[(? & ?)|(? & ?)]]; congruence).
Qed.

(** X12.  In a run that fulfilled, [reject] was never called and the write
    stream was never destroyed. *)
Theorem success_is_clean (world : World) (url targetFilePath : string)
    (options : option (gmap string JSValue)) (events : list Event) :
  let s := run path world url targetFilePath options events in
  returned s = Fulfilled ->
  count callsReject (log s) = 0%nat /\
  count destroysWriteStream (log s) = 0%nat.
Proof.
  intros s. subst s. unfold run.
  assert (H : match returned (download path world url targetFilePath options)
              with
              | Rejected _ => True
              | _ =>
                  count callsReject
                    (log (download path world url targetFilePath options)) = 0%nat /\
                  count destroysWriteStream
                    (log (download path world url targetFilePath options)) = 0%nat
              end).
  { unfold download. destruct (mkdirp world); simpl; [exact I|].
    destruct (gotStream world), (negb _ || negb _); simpl; auto. }
  pose proof (Inv_download path world url targetFilePath options) as HI.
  revert H HI. generalize (download path world url targetFilePath options).
  induction events as [|ev events IH]; intros s H HI; simpl.
  - intros Hf. rewrite Hf in H. exact H.
  - apply IH.
    + apply (clean_step url _ s ev HI H).
    + apply Inv_step, HI.
Qed.

End Settlement.


(** ** Instances *)

(** [first_settlement_is_final]: the transport stream fails, then the
    destroyed write stream emits its error and its close. *)
Lemma first_settlement_is_final_witness :
  settled
    (returned
       (run samplePath quietWorld "http://a/x" "/tmp/d/f" None
          [DownloadError boom])) = true /\
  returned
    (run samplePath quietWorld "http://a/x" "/tmp/d/f" None
       ([DownloadError boom] ++ [WriteError notFound; WriteClose])) =
  returned
    (run samplePath quietWorld "http://a/x" "/tmp/d/f" None
       [DownloadError boom]).
Proof.
  assert (H : settled
                (returned
                   (run samplePath quietWorld "http://a/x" "/tmp/d/f" None
                      [DownloadError boom])) = true)
    by (vm_compute; reflexivity).
  split; [exact H|].
  exact (first_settlement_is_final samplePath quietWorld "http://a/x"
           "/tmp/d/f" None [DownloadError boom]
           [WriteError notFound; WriteClose] H).
Defined.

(** [no_bar_before_the_delay]: a transfer that completes within the delay,
    with the timer reported one millisecond early. *)
Lemma no_bar_before_the_delay_witness :
  let events :=
    [DownloadProgress half; TimeoutFires 30999; DownloadEnd; WriteClose] in
  let s := run samplePath quietWorld "http://a/x" "/tmp/d/f" None events in
  forallb (before (now quietWorld + 30000)) events = true /\
  bar s = None /\
  count createsBar (log s) = 0%nat /\
  count updatesBar (log s) = 0%nat.
Proof.
  intros events s.
  assert (H : forallb (before (now quietWorld + 30000)) events = true)
    by (vm_compute; reflexivity).
  split; [exact H|].
  exact (no_bar_before_the_delay samplePath quietWorld "http://a/x" "/tmp/d/f"
           None events H).
Defined.

(** [both_opt_outs_silence_the_bar]: [quiet: true] and the environment
    variable set, in a transfer that takes longer than the delay. *)
Lemma both_opt_outs_silence_the_bar_witness :
  let events := [DownloadProgress half; TimeoutFires 40000] in
  let s :=
    run samplePath optedOutWorld "http://a/x" "/tmp/d/f" quietOptions events in
  (truthy (get (default ∅ quietOptions) "quiet") = true /\
   truthyEnv (env optedOutWorld !! "ELECTRON_GET_NO_PROGRESS") = true) /\
  timeout s = None /\ bar s = None /\
  count setsTimeout (log s) = 0%nat /\
  count createsBar (log s) = 0%nat /\
  count updatesBar (log s) = 0%nat.
Proof.
  intros events s.
  assert (H : truthy (get (default ∅ quietOptions) "quiet") = true /\
              truthyEnv (env optedOutWorld !! "ELECTRON_GET_NO_PROGRESS") = true)
    by (vm_compute; split; reflexivity).
  split; [exact H|]. destruct H as [Hq He].
  exact (both_opt_outs_silence_the_bar samplePath optedOutWorld "http://a/x"
           "/tmp/d/f" quietOptions events Hq He).
Defined.

(** [no_bar_after_success]: the timer's time comes after the transfer has
    completed. *)
Lemma no_bar_after_success_witness :
  let events := [DownloadEnd; WriteClose] in
  let more := [TimeoutFires 40000] in
  let s := run samplePath quietWorld "http://a/x" "/tmp/d/f" None events in
  let s' :=
    run samplePath quietWorld "http://a/x" "/tmp/d/f" None (events ++ more) in
  returned s = Fulfilled /\
  bar s' = bar s /\
  count createsBar (log s') = count createsBar (log s).
Proof.
  intros events more s s'.
  assert (H : returned s = Fulfilled) by (vm_compute; reflexivity).
  split; [exact H|].
  exact (no_bar_after_success samplePath quietWorld "http://a/x" "/tmp/d/f"
           None events more H).
Defined.

(** [end_and_close_fulfil]: after one transfer-progress event. *)
Lemma end_and_close_fulfil_witness :
  let events := [DownloadProgress half] in
  let s' :=
    run samplePath quietWorld "http://a/x" "/tmp/d/f" None
      (events ++ [DownloadEnd; WriteClose]) in
  returned (run samplePath quietWorld "http://a/x" "/tmp/d/f" None events)
  = Pending /\
  returned s' = Fulfilled /\
  writeStream s' = Some WClosed /\
  downloadStream s' = Some REnded /\
  downloadCompleted s' = true /\
  waiting (timeout s') = false.
Proof.
  intros events s'.
  assert (H : returned
                (run samplePath quietWorld "http://a/x" "/tmp/d/f" None events)
              = Pending) by (vm_compute; reflexivity).
  split; [exact H|].
  exact (end_and_close_fulfil samplePath quietWorld "http://a/x" "/tmp/d/f"
           None events H).
Defined.


(** [success_is_clean]: a transfer that completes. *)
Lemma success_is_clean_witness :
  let s :=
    run samplePath quietWorld "http://a/x" "/tmp/d/f" None
      [DownloadProgress half; DownloadEnd; WriteClose] in
  returned s = Fulfilled /\
  count callsReject (log s) = 0%nat /\
  count destroysWriteStream (log s) = 0%nat.
Proof.
  intros s.
  assert (H : returned s = Fulfilled) by (vm_compute; reflexivity).
  split; [exact H|].
  exact (success_is_clean samplePath quietWorld "http://a/x" "/tmp/d/f" None
           [DownloadProgress half; DownloadEnd; WriteClose] H).
Defined.

(** A run in which [bar.update] throws during the second of three
    transfer-progress events after the timer fired: the callback is called
    for the first and the third event only, [bar.update] is called three
    times, and the thrown error is left unhandled, between those of the
    callback, while the call stays pending. *)
Example update_failure_skips_the_callback :
  let s :=
    run samplePath quietWorld "http://a/x" "/tmp/d/f" withFailingCallback
      [TimeoutFires 31000; DownloadProgress half;
       DownloadProgressUpdateFails unknownTotal renderFailure;
       DownloadProgress three_quarters] in
  callbacks (log s) = [half; three_quarters] /\
  length (barUpdates (log s)) = 3%nat /\
  unhandledRejections s = [boom; renderFailure; boom] /\
  returned s = Pending.
Proof. vm_compute. repeat split. Qed.

Section Updates.

Variable path : PathModule.

(** ** The updates of the bar and the calls of the callback *)

Lemma barUpdates_none (l : list Effect) :
  count updatesBar l = 0%nat -> barUpdates l = [].
Proof.
  induction l as [|e l IH]; simpl; [reflexivity|].
  destruct e; simpl; try exact IH. discriminate.
Qed.

(** Only the end and the failure of the transport stream close it. *)
Lemma open_step (url : string) (cb : JSValue) (s : State) (ev : Event) :
  transportOpen (step path url cb s ev) =
    transportOpen s &&
    match ev with
    | DownloadError _ | DownloadEnd => false
    | _ => true
    end.
Proof.
  unfold transportOpen.
  step_cases s ev cb; rewrite ?andb_false_r, ?andb_true_r;
    try reflexivity;
    repeat match goal with
           | r : ReadableState |- _ => destruct r; simpl
           end;
    reflexivity.
Qed.

(** What one event adds to the calls of the callback: the event itself when
    it is a transfer-progress event of an open transport stream, the callback
    is a function and [bar.update] did not throw. *)
Lemma callbacks_step (url : string) (cb : JSValue) (s : State) (ev : Event) :
  callbacks (log (step path url cb s ev)) =
    callbacks (log s) ++
    (if transportOpen s && isFunction cb
     then match ev with
          | DownloadProgress progress => [progress]
          | DownloadProgressUpdateFails progress _ =>
              match bar s with
              | Some _ => []
              | None => [progress]
              end
          | _ => []
          end
     else []).
Proof.
  unfold transportOpen.
  step_cases s ev cb; rewrite ?callbacks_app; simpl;
    rewrite ?app_nil_r; try reflexivity;
    repeat match goal with
           | r : ReadableState |- _ => destruct r; simpl
           end;
    try (destruct ds as [[]|]; simpl);
    try (destruct (isFunction cb); simpl);
    rewrite ?app_nil_r; reflexivity.
Qed.

(** What one event adds to the updates of the bar. *)
Lemma barUpdates_step (url : string) (cb : JSValue) (s : State) (ev : Event) :
  barUpdates (log (step path url cb s ev)) =
    barUpdates (log s) ++
    (if transportOpen s
     then match bar s, ev with
          | Some _, DownloadProgress progress
          | Some _, DownloadProgressUpdateFails progress _ =>
              [calculatedPercent progress]
          | _, _ => []
          end
     else []).
Proof.
  unfold transportOpen.
  step_cases s ev cb; rewrite ?barUpdates_app; simpl;
    rewrite ?app_nil_r; try reflexivity;
    repeat match goal with
           | r : ReadableState |- _ => destruct r; simpl
           end;
    try (destruct ds as [[]|]; simpl); try (destruct b; simpl);
    rewrite ?app_nil_r; reflexivity.
Qed.

Lemma closed_steps (url : string) (cb : JSValue) (events : list Event)
    (s : State) :
  transportOpen s = false ->
  barUpdates (log (fold_left (step path url cb) events s))
  = barUpdates (log s) /\
  callbacks (log (fold_left (step path url cb) events s))
  = callbacks (log s).
Proof.
  revert s; induction events as [|ev events IH]; intros s H; simpl;
    [split; reflexivity|].
  assert (Ho : transportOpen (step path url cb s ev) = false)
    by (rewrite open_step, H; reflexivity).
  destruct (IH _ Ho) as [-> ->].
  rewrite barUpdates_step, callbacks_step, H. simpl.
  rewrite !app_nil_r. split; reflexivity.
Qed.

Lemma bar_kept (url : string) (cb : JSValue) (s : State) (ev : Event) :
  bar s <> None -> bar (step path url cb s ev) <> None.
Proof.
  step_cases s ev cb; intros H; try congruence; try discriminate.
Qed.

Lemma with_bar_steps (url : string) (cb : JSValue) (events : list Event)
    (s : State) :
  bar s <> None ->
  barUpdates (log (fold_left (step path url cb) events s)) =
    barUpdates (log s) ++
    (if transportOpen s then map calculatedPercent (delivered events) else [])
  /\
  callbacks (log (fold_left (step path url cb) events s)) =
    callbacks (log s) ++
    (if transportOpen s && isFunction cb then reachedWithBar events else []).
Proof.
  revert s; induction events as [|ev events IH]; intros s H; simpl.
  - destruct (transportOpen s), (isFunction cb); simpl;
      rewrite !app_nil_r; split; reflexivity.
  - destruct (IH _ (bar_kept url cb s ev H)) as [-> ->].
    rewrite barUpdates_step, callbacks_step, open_step, <- !app_assoc.
    destruct (bar s) as [shownBar|]; [|congruence].
    destruct (transportOpen s), (isFunction cb), ev; simpl;
      rewrite ?app_nil_r; split; reflexivity.
Qed.

Lemma no_timer_step (url : string) (cb : JSValue) (s : State) (ev : Event) :
  timeout s = None /\ bar s = None ->
  timeout (step path url cb s ev) = None /\ bar (step path url cb s ev) = None.
Proof.
  step_cases s ev cb; intros (Ht & Hb);
    try discriminate Ht; try discriminate Hb; simpl in *; subst;
    split; reflexivity.
Qed.

Lemma no_timer_steps (url : string) (cb : JSValue) (events : list Event)
    (s : State) :
  timeout s = None /\ bar s = None ->
  callbacks (log (fold_left (step path url cb) events s)) =
    callbacks (log s) ++
    (if transportOpen s && isFunction cb then delivered events else []).
Proof.
  revert s; induction events as [|ev events IH]; intros s H; simpl.
  - destruct (transportOpen s && isFunction cb);
      rewrite app_nil_r; reflexivity.
  - rewrite (IH _ (no_timer_step url cb s ev H)).
    rewrite callbacks_step, open_step, <- app_assoc.
    destruct H as [_ ->].
    destruct (transportOpen s), (isFunction cb), ev; simpl; reflexivity.
Qed.

Lemma watching_step (url : string) (cb : JSValue) (limit : Z) (s : State)
    (ev : Event) :
  Watching limit s ->
  match ev with
  | DownloadError _ | DownloadEnd => transportOpen (step path url cb s ev) = false
  | TimeoutFires time =>
      if limit <=? time
      then bar (step path url cb s ev) <> None /\
           transportOpen (step path url cb s ev) = true
      else Watching limit (step path url cb s ev)
  | _ => Watching limit (step path url cb s ev)
  end.
Proof.
  unfold Watching, transportOpen.
  step_cases s ev cb; intros (Ho & Hb & Hdc & Hw & Ht);
    try discriminate Ho; try discriminate Hb; try discriminate Hdc;
    try (destruct Ht as [Ht _]; discriminate Ht); try contradiction;
    try (specialize (Hw eq_refl); discriminate Hw);
    try (destruct Ht as [_ Ht]; simpl in Ht; subst limit; rewrite Hfire);
    simpl; repeat split; auto; try discriminate;
    try (destruct Ht as [_ Ht]; exact Ht).
Qed.

Lemma watching_steps (url : string) (cb : JSValue) (limit : Z)
    (events : list Event) (s : State) :
  Watching limit s ->
  barUpdates (log (fold_left (step path url cb) events s)) =
    barUpdates (log s) ++ map calculatedPercent (shown limit events) /\
  callbacks (log (fold_left (step path url cb) events s)) =
    callbacks (log s) ++ (if isFunction cb then reached limit events else []).
Proof.
  revert s; induction events as [|ev events IH]; intros s H; simpl.
  - destruct (isFunction cb); rewrite !app_nil_r; split; reflexivity.
  - pose proof (watching_step url cb limit s ev H) as Hnext.
    pose proof (barUpdates_step url cb s ev) as Hu.
    pose proof (callbacks_step url cb s ev) as Hc.
    destruct H as (Ho & Hb & _). rewrite Ho, Hb in *. simpl in Hu, Hc.
    rewrite app_nil_r in Hu.
    destruct ev as [progress|progress failure|error| | |error| |time].
    + destruct (IH _ Hnext) as [-> ->]. rewrite Hu, Hc, <- app_assoc.
      destruct (isFunction cb); simpl; rewrite ?app_nil_r;
        split; reflexivity.
    + destruct (IH _ Hnext) as [-> ->]. rewrite Hu, Hc, <- app_assoc.
      destruct (isFunction cb); simpl; rewrite ?app_nil_r;
        split; reflexivity.
    + destruct (closed_steps url cb events _ Hnext) as [-> ->].
      rewrite Hu, Hc. destruct (isFunction cb); simpl; rewrite ?app_nil_r;
        split; reflexivity.
    + destruct (closed_steps url cb events _ Hnext) as [-> ->].
      rewrite Hu, Hc. destruct (isFunction cb); simpl; rewrite ?app_nil_r;
        split; reflexivity.
    + destruct (IH _ Hnext) as [-> ->]. rewrite Hu, Hc, <- app_assoc.
      destruct (isFunction cb); simpl; rewrite ?app_nil_r;
        split; reflexivity.
    + destruct (IH _ Hnext) as [-> ->]. rewrite Hu, Hc, <- app_assoc.
      destruct (isFunction cb); simpl; rewrite ?app_nil_r;
        split; reflexivity.
    + destruct (IH _ Hnext) as [-> ->]. rewrite Hu, Hc, <- app_assoc.
      destruct (isFunction cb); simpl; rewrite ?app_nil_r;
        split; reflexivity.
    + destruct (limit <=? time).
      * destruct Hnext as [Hbar Hopen].
        destruct (with_bar_steps url cb events _ Hbar) as [-> ->].
        rewrite Hu, Hc, Hopen, <- app_assoc.
        destruct (isFunction cb); simpl; rewrite ?app_nil_r;
        split; reflexivity.
      * destruct (IH _ Hnext) as [-> ->]. rewrite Hu, Hc, <- app_assoc.
        destruct (isFunction cb); simpl; rewrite ?app_nil_r;
        split; reflexivity.
Qed.

(** X6.  When the directory was made and the transport stream was created,
    a callback that is a function is called exactly once for each
    transfer-progress event for which the listener reaches line 66, with
    that event and in the order of the events: every such event that the
    transport stream emits before it ends or fails, except, once the timer
    has fired and the bar exists, those during which [bar.update] throws.
    A callback that is not a function is never called. *)
Theorem callback_once_per_event (environment : gmap string string) (time : Z)
    (url targetFilePath : string) (options : option (gmap string JSValue))
    (events : list Event) :
  let world :=
    {| env := environment; now := time; mkdirp := None; gotStream := None |} in
  let cb := get (default ∅ options) "getProgressCallback" in
  let armed :=
    negb (truthy (get (default ∅ options) "quiet"))
    || negb (truthyEnv (environment !! "ELECTRON_GET_NO_PROGRESS")) in
  callbacks (log (run path world url targetFilePath options events)) =
  if isFunction cb
  then if armed then reached (time + 30000) events else delivered events
  else [].
Proof.
  intros world cb armed. unfold run. fold cb.
  rewrite (download_started path world url targetFilePath options
             eq_refl eq_refl).
  change (env world) with environment. fold armed.
  destruct armed.
  - destruct (watching_steps url cb (time + 30000) events
                {| downloadCompleted := false; bar := None;
                   progressPercent := None;
                   timeout :=
                     Some {| capturedStart := now world; delay := 30000;
                             status := TimerWaiting |};
                   writeStream := Some WOpen; downloadStream := Some ROpen;
                   promise := Some Pending; returned := Pending;
                   log :=
                     [EMkdirp (dirname path targetFilePath);
                      ECreateWriteStream targetFilePath] ++
                     [ESetTimeout 30000] ++
                     [EGotStream url (gotOptionsOf (default ∅ options));
                      EPipe];
                   unhandledRejections := [] |}) as [_ Hc].
    { unfold Watching, transportOpen. simpl. repeat split; auto. }
    rewrite Hc. reflexivity.
  - rewrite no_timer_steps by (split; reflexivity).
    simpl. destruct (isFunction cb); reflexivity.
Qed.

(** X13.  When the directory was made, the transport stream was created
    and the timer was armed, [bar.update] is called exactly for the
    transfer-progress events that arrive after the timer fired (30 seconds
    or more after the call) and before the transport stream ends or fails,
    once each, in order, with the percent of line 62; when the timer was not
    armed the bar is never updated. *)
Theorem bar_updates_of_a_run (environment : gmap string string) (time : Z)
    (url targetFilePath : string) (options : option (gmap string JSValue))
    (events : list Event) :
  let world :=
    {| env := environment; now := time; mkdirp := None; gotStream := None |} in
  let armed :=
    negb (truthy (get (default ∅ options) "quiet"))
    || negb (truthyEnv (environment !! "ELECTRON_GET_NO_PROGRESS")) in
  barUpdates (log (run path world url targetFilePath options events)) =
  if armed
  then map calculatedPercent (shown (time + 30000) events)
  else [].
Proof.
  intros world armed. unfold run.
  rewrite (download_started path world url targetFilePath options
             eq_refl eq_refl).
  change (env world) with environment. fold armed.
  destruct armed.
  - destruct (watching_steps url
                (get (default ∅ options) "getProgressCallback")
                (time + 30000) events
                {| downloadCompleted := false; bar := None;
                   progressPercent := None;
                   timeout :=
                     Some {| capturedStart := now world; delay := 30000;
                             status := TimerWaiting |};
                   writeStream := Some WOpen; downloadStream := Some ROpen;
                   promise := Some Pending; returned := Pending;
                   log :=
                     [EMkdirp (dirname path targetFilePath);
                      ECreateWriteStream targetFilePath] ++
                     [ESetTimeout 30000] ++
                     [EGotStream url (gotOptionsOf (default ∅ options));
                      EPipe];
                   unhandledRejections := [] |}) as [Hu _].
    { unfold Watching, transportOpen. simpl. repeat split; auto. }
    rewrite Hu. reflexivity.
  - apply barUpdates_none.
    assert (H : forall s,
              (timeout s = None /\ bar s = None /\
               count setsTimeout (log s) = 0%nat /\
               count createsBar (log s) = 0%nat /\
               count updatesBar (log s) = 0%nat) ->
              count updatesBar
                (log (fold_left
                        (step path url
                           (get (default ∅ options) "getProgressCallback"))
                        events s)) = 0%nat).
    { induction events as [|ev events IH]; intros s Hs; simpl.
      - apply Hs.
      - apply IH. apply (opted_out_step path url _ s ev Hs). }
    apply H. simpl. repeat split.
Qed.

End Updates.
